(** * External-memory sparse page source (src/data/sparse_page_source.cc)

    A shallow embedding of the shard path resolver, the constructor, the
    page source cursor (Next / BeforeFirst) and the two cache builders,
    together with the properties the design document states about them.

    Conventions.
    - Unsigned machine integers are integers of [Z] with the wrap-around
      written out ([wrap32], [wrap64]); indices into vectors are [nat].
    - A call that may stop the program returns an [Outcome]: [Ok] for a normal
      return, [Abort] for a failed CHECK or LOG(FATAL), [Undefined] where the
      C++ has no defined behaviour (indexing or back() on an empty vector).
    - Logging and timing only feed the console and are left out. *)

From Stdlib Require Import ZArith Lia Bool Ascii String.
From stdpp Require Import base tactics option list.

Local Open Scope Z_scope.

(** ** Outcomes *)

Inductive Fatal : Type :=
  | BadCacheSpec      (* CHECK_NE(cache_shards.size(), 0U) *)
  | UnknownPageType   (* LOG(FATAL) << "Unknown page type: " *)
  | GroupInvariant    (* CHECK(info.qids_.empty() || ... == info.num_row_) *)
  | IoError           (* a file that cannot be opened for reading *)
  | BadPageHeader     (* CHECK_EQ on the magic, CHECK(fi->Read(&format)) *)
  | UnknownFormat.    (* SparsePageFormat::Create on a name not registered *)

Inductive Outcome (A : Type) : Type :=
  | Ok (a : A)
  | Abort (e : Fatal)
  | Undefined.

Arguments Ok {A} a.
Arguments Abort {A} e.
Arguments Undefined {A}.

Definition bind {A B : Type} (m : Outcome A) (k : A -> Outcome B) : Outcome B :=
  match m with
  | Ok a => k a
  | Abort e => Abort e
  | Undefined => Undefined
  end.

Notation "'do' x <- m ; k" := (bind m (fun x => k))
  (at level 10, x name, m at level 100, k at level 200).

(** CHECK(cond): continue when [cond] holds, stop with [e] otherwise. *)
Definition CHECK (cond : bool) (e : Fatal) : Outcome unit :=
  if cond then Ok tt else Abort e.

(** ** Fixed-width arithmetic *)

Definition wrap32 (x : Z) : Z := x mod 2 ^ 32.
Definition wrap64 (x : Z) : Z := x mod 2 ^ 64.

(** std::numeric_limits<uint64_t>::max() *)
Definition uint64_max : Z := 2 ^ 64 - 1.

(** ** Shard path resolver *)

Module CacheSpec.

Local Open Scope string_scope.

(** Modelled from the spec: [xgboost::common::Split] lives in
    common/common.h, which is not part of the excerpt.  The design document
    fixes [parse "a:b:c" = [a; b; c]] and makes [parse] of the empty text an empty list; the
    pieces are read the way [std::getline] reads them, so a separator closes
    the current piece (even an empty one) and the end of the text closes it
    only when at least one character was read. *)
Fixpoint getline_loop (delim : ascii) (s item : string) : list string :=
  match s with
  | EmptyString => if String.eqb item EmptyString then [] else [item]
  | String c rest =>
      if Ascii.eqb c delim
      then item :: getline_loop delim rest EmptyString
      else getline_loop delim rest (item ++ String c EmptyString)
  end.

Definition Split (s : string) (delim : ascii) : list string :=
  getline_loop delim s EmptyString.

(** std::isalpha(c, std::locale::classic()): the 52 letters of ASCII. *)
Definition isalpha (c : ascii) : bool :=
  let n := nat_of_ascii c in
  ((65 <=? n)%nat && (n <=? 90)%nat) || ((97 <=? n)%nat && (n <=? 122)%nat).

(** The test of lines 24-26: length >= 2, a letter, then ':'. *)
Definition has_drive_letter (cache_info : string) : bool :=
  match cache_info with
  | String c0 (String c1 _) => isalpha c0 && Ascii.eqb c1 ":"
  | _ => false
  end.

(** GetCacheShards.  [win] is the preprocessor test
    [(defined _WIN32) || (defined __CYGWIN__)].  Line 29 assigns to
    [cache_shards[0]] without looking at the size of the vector. *)
Definition GetCacheShards (win : bool) (cache_info : string)
  : Outcome (list string) :=
  if win && has_drive_letter cache_info then
    let cache_shards :=
      Split (substring 2 (String.length cache_info - 2) cache_info) ":" in
    match cache_shards with
    | [] => Undefined
    | first :: others => Ok ((substring 0 2 cache_info ++ first) :: others)
    end
  else Ok (Split cache_info ":").

(** The first two statements of the constructor and of every builder:
    resolve the shards, then CHECK_NE(cache_shards.size(), 0U). *)
Definition resolve_shards (win : bool) (cache_info : string)
  : Outcome (list string) :=
  do cache_shards <- GetCacheShards win cache_info;
  do _ok <- CHECK (negb (Nat.eqb (List.length cache_shards) 0)) BadCacheSpec;
  Ok cache_shards.

End CacheSpec.

(** ** Sparse pages *)

Module Page.

(** One nonzero: a 32-bit column index and a float, kept as its bit pattern
    (the code under study only copies feature values). *)
Record Entry : Type := mkEntry { index : Z; fvalue : Z }.

(** Modelled from the spec: [SparsePage] is declared in xgboost/data.h, which
    is not part of the excerpt.  It is "a batch of rows in CSR form plus a
    base_rowid field"; the rows are kept as the list of their entries. *)
Record SparsePage : Type := mkPage { rows : list (list Entry); base_rowid : Z }.

(** Modelled from the spec: [SparsePage::Size], the number of rows. *)
Definition Size (p : SparsePage) : Z := Z.of_nat (length (rows p)).

(** Modelled from the spec: [page->data.Size()], the number of entries. *)
Definition data_Size (p : SparsePage) : Z := Z.of_nat (length (concat (rows p))).

(** Modelled from the spec: [SparsePage::Clear]. *)
Definition Clear (p : SparsePage) : SparsePage := mkPage [] 0.

(** Modelled from the spec: [SparsePage::Push], appending a batch of rows. *)
Definition Push (p : SparsePage) (batch : list (list Entry)) : SparsePage :=
  mkPage (rows p ++ batch) (base_rowid p).

(** The assignment [page->base_rowid = v]. *)
Definition set_base_rowid (v : Z) (p : SparsePage) : SparsePage :=
  mkPage (rows p) v.

End Page.

Import Page.

(** ** The page source cursor *)

Module Reader.

(** dmlc::ThreadedIter<SparsePage>, by its sequential contract: the producer
    decodes the pages of one shard file from [fbegin] to the end of the file
    ([source]); [cursor] pages have been handed to the consumer since the last
    rewind, and [recycled] counts the cells given back.  Once the pages are
    used up, Next keeps answering false until BeforeFirst. *)
Record ThreadedIter : Type := mkIter {
  source : list SparsePage;
  cursor : nat;
  recycled : nat
}.

Definition iter_Next (it : ThreadedIter) : option (SparsePage * ThreadedIter) :=
  match source it !! cursor it with
  | Some p => Some (p, mkIter (source it) (S (cursor it)) (recycled it))
  | None => None
  end.

Definition iter_Recycle (it : ThreadedIter) : ThreadedIter :=
  mkIter (source it) (cursor it) (S (recycled it)).

Definition iter_BeforeFirst (it : ThreadedIter) : ThreadedIter :=
  mkIter (source it) 0 (recycled it).

(** The members of SparsePageSource the cursor works on. *)
Record SparsePageSource : Type := mkSource {
  base_rowid_ : Z;
  page_ : option SparsePage;
  clock_ptr_ : nat;
  prefetchers_ : list ThreadedIter
}.

(** Lines 84-87: hand the page held back to the shard before [clock_ptr_];
    Recycle resets the pointer it is given. *)
Definition recycle_page (s : SparsePageSource) : Outcome SparsePageSource :=
  match page_ s with
  | None => Ok s
  | Some _ =>
      let n := length (prefetchers_ s) in
      if Nat.eqb n 0 then Undefined else
      let i := ((clock_ptr_ s + n - 1) mod n)%nat in
      match prefetchers_ s !! i with
      | None => Undefined
      | Some it =>
          Ok (mkSource (base_rowid_ s) None (clock_ptr_ s)
                (<[i := iter_Recycle it]> (prefetchers_ s)))
      end
  end.

(** SparsePageSource::Next *)
Definition Next (s : SparsePageSource) : Outcome (bool * SparsePageSource) :=
  do s1 <- recycle_page s;
  match prefetchers_ s1 !! clock_ptr_ s1 with
  | None => Undefined
  | Some it =>
      match iter_Next it with
      | Some (p, it') =>
          Ok (true,
              mkSource (wrap64 (base_rowid_ s1 + Size p))
                (Some (set_base_rowid (base_rowid_ s1) p))
                ((clock_ptr_ s1 + 1) mod length (prefetchers_ s1))%nat
                (<[clock_ptr_ s1 := it']> (prefetchers_ s1)))
      | None => Ok (false, s1)
      end
  end.

(** SparsePageSource::BeforeFirst *)
Definition BeforeFirst (s : SparsePageSource) : SparsePageSource :=
  mkSource 0 (page_ s) 0 (iter_BeforeFirst <$> prefetchers_ s).

(** SparsePageSource::Value *)
Definition Value (s : SparsePageSource) : Outcome SparsePage :=
  match page_ s with
  | Some p => Ok p
  | None => Undefined
  end.

(** The members as the constructor initialises them (lines 43 and 54-75),
    given the pages that the format decodes from each shard file. *)
Definition open_source (files : list (list SparsePage)) : SparsePageSource :=
  mkSource 0 None 0 ((fun pages => mkIter pages 0 0) <$> files).

(** What a consumer sees of one successful Next: the shard that served it and
    the page behind Value. *)
Record Yield : Type := mkYield { shard : nat; held : SparsePage }.

(** The consumer loop [while (Next()) { ... Value() ... }].  [None] means the
    loop was cut after [fuel] calls of Next. *)
Fixpoint drain (fuel : nat) (s : SparsePageSource)
  : option (Outcome (list Yield * SparsePageSource)) :=
  match fuel with
  | O => None
  | S fuel' =>
      match Next s with
      | Ok (true, s') =>
          match Value s' with
          | Ok p =>
              match drain fuel' s' with
              | Some (Ok (ys, sf)) => Some (Ok (mkYield (clock_ptr_ s) p :: ys, sf))
              | other => other
              end
          | Abort e => Some (Abort e)
          | Undefined => Some Undefined
          end
      | Ok (false, s') => Some (Ok ([], s'))
      | Abort e => Some (Abort e)
      | Undefined => Some Undefined
      end
  end.

(** [n] further calls of Next, keeping the answers. *)
Fixpoint Next_times (n : nat) (s : SparsePageSource)
  : Outcome (list bool * SparsePageSource) :=
  match n with
  | O => Ok ([], s)
  | S n' =>
      do r <- Next s;
      do rs <- Next_times n' (snd r);
      Ok (fst r :: fst rs, snd rs)
  end.

End Reader.

(** ** The cache builders *)

Module Builder.

(** dmlc::RowBlock<uint32_t>: [size] rows; row [r] owns the positions
    [offset[r] .. offset[r+1])] of [index] and [value]; [label], [weight],
    [qid] and [value] may be null.  Arrays are lists read by position; floats
    are kept as bit patterns. *)
Record RowBlock : Type := mkBlock {
  size : nat;
  offset : list Z;
  label : option (list Z);
  weight : option (list Z);
  qid : option (list Z);
  index : list Z;
  value : option (list Z)
}.

(** The fields of MetaInfo the builders touch. *)
Record MetaInfo : Type := mkInfo {
  num_row_ : Z;
  num_col_ : Z;
  num_nonzero_ : Z;
  labels_ : list Z;
  weights_ : list Z;
  qids_ : list Z;
  group_ptr_ : list Z
}.

(** A default-constructed MetaInfo. *)
Definition empty_info : MetaInfo := mkInfo 0 0 0 [] [] [] [].

(** The operations on pages that the builders call and the excerpt does not
    define, and the page budget of sparse_page_source.h. *)
Class PageOps : Type := {
  MemCostBytes : SparsePage -> Z;
  GetTranspose : SparsePage -> Z -> SparsePage;
  SortRows : SparsePage -> SparsePage;
  kPageSize : Z
}.

(** [p[i]] for an array that the block owns. *)
Definition at_ (l : list Z) (i : nat) : Z := nth i l 0.

(** The 1.0f a block without values stands for. *)
Definition one_f : Z := 1065353216.

(** Modelled from the spec: the rows a block contributes to a page through
    [SparsePage::Push(const dmlc::RowBlock<uint32_t>&)] (xgboost/data.h is not
    part of the excerpt). *)
Definition block_row (b : RowBlock) (r : nat) : list Entry :=
  let lo := Z.to_nat (at_ (offset b) r) in
  let hi := Z.to_nat (at_ (offset b) (S r)) in
  (fun j => mkEntry (at_ (index b) j)
              (match value b with Some v => at_ v j | None => one_f end))
    <$> seq lo (hi - lo).

Definition block_rows (b : RowBlock) : list (list Entry) :=
  block_row b <$> seq 0 (size b).

(** What the builder has in hand between two batches. *)
Record Work : Type := mkWork {
  info : MetaInfo;
  page : SparsePage;
  written : list SparsePage;     (* the pages given to PushWrite, in order *)
  bytes_write : Z;
  last_group_id : Z;
  group_size : Z
}.

(** Lines 170-175, one row of the qid column. *)
Definition group_row (w : Work) (cur_group_id : Z) : Work :=
  let i := info w in
  let group_ptr :=
    if (last_group_id w =? uint64_max) || negb (last_group_id w =? cur_group_id)
    then group_ptr_ i ++ [group_size w]
    else group_ptr_ i in
  mkWork
    (mkInfo (num_row_ i) (num_col_ i) (num_nonzero_ i) (labels_ i) (weights_ i)
       (qids_ i) group_ptr)
    (page w) (written w) (bytes_write w)
    cur_group_id (wrap32 (group_size w + 1)).

(** Lines 166-177. *)
Definition read_qids (b : RowBlock) (w : Work) : Work :=
  match qid b with
  | None => w
  | Some q =>
      let i := info w in
      let w1 :=
        mkWork
          (mkInfo (num_row_ i) (num_col_ i) (num_nonzero_ i) (labels_ i)
             (weights_ i) (qids_ i ++ take (size b) q) (group_ptr_ i))
          (page w) (written w) (bytes_write w) (last_group_id w) (group_size w) in
      fold_left (fun acc r => group_row acc (at_ q r)) (seq 0 (size b)) w1
  end.

(** Lines 180-184: [index + 1] is computed on uint32_t, then widened. *)
Definition scan_columns (b : RowBlock) (num_col : Z) : Z :=
  let lo := Z.to_nat (at_ (offset b) 0) in
  let hi := Z.to_nat (at_ (offset b) (size b)) in
  fold_left (fun nc j => Z.max nc (wrap32 (at_ (index b) j + 1)))
    (seq lo (hi - lo)) num_col.

(** Lines 158-165: the labels and the weights of the block, when it has any. *)
Definition read_labels (b : RowBlock) (w : Work) : Work :=
  let i := info w in
  mkWork
    (mkInfo (num_row_ i) (num_col_ i) (num_nonzero_ i)
       (match label b with Some l => labels_ i ++ take (size b) l | None => labels_ i end)
       (match weight b with Some l => weights_ i ++ take (size b) l | None => weights_ i end)
       (qids_ i) (group_ptr_ i))
    (page w) (written w) (bytes_write w) (last_group_id w) (group_size w).

(** Lines 178-184: the three counters. *)
Definition read_counts (b : RowBlock) (i : MetaInfo) : MetaInfo :=
  mkInfo
    (wrap64 (num_row_ i + Z.of_nat (size b)))
    (scan_columns b (num_col_ i))
    (wrap64 (num_nonzero_ i
             + wrap64 (at_ (offset b) (size b) - at_ (offset b) 0)))
    (labels_ i) (weights_ i) (qids_ i) (group_ptr_ i).

Section WithPageOps.

Context {ops : PageOps}.

(** Lines 186-199 and 256-265: a page that reached the budget goes to the
    writer and a cleared one takes its place. *)
Definition flush_if_full (p : SparsePage) (out : list SparsePage) (bytes : Z)
  : SparsePage * list SparsePage * Z :=
  if MemCostBytes p >=? kPageSize
  then (Clear p, out ++ [p], wrap64 (bytes + MemCostBytes p))
  else (p, out, bytes).

(** Lines 207-209 and 267-269. *)
Definition flush_trailing (p : SparsePage) (out : list SparsePage)
  : list SparsePage :=
  if negb (data_Size p =? 0) then out ++ [p] else out.

(** The body of the loop of lines 156-200. *)
Definition row_page_batch (w : Work) (b : RowBlock) : Work :=
  let w1 := read_qids b (read_labels b w) in
  let i := read_counts b (info w1) in
  let '(p, out, bytes) :=
    flush_if_full (Push (page w1) (block_rows b)) (written w1) (bytes_write w1) in
  mkWork i p out bytes (last_group_id w1) (group_size w1).

(** The state on entry to the loop: lines 142-154. *)
Definition row_page_start : Work :=
  mkWork empty_info (mkPage [] 0) [] 0 uint64_max 0.

Definition row_page_loop (src : list RowBlock) : Work :=
  fold_left row_page_batch src row_page_start.

(** Lines 201-205; [back()] needs a non-empty vector. *)
Definition close_groups (w : Work) : Outcome MetaInfo :=
  let i := info w in
  if negb (last_group_id w =? uint64_max) then
    match last (group_ptr_ i) with
    | None => Undefined
    | Some boundary =>
        if group_size w >? boundary
        then Ok (mkInfo (num_row_ i) (num_col_ i) (num_nonzero_ i) (labels_ i)
                   (weights_ i) (qids_ i) (group_ptr_ i ++ [group_size w]))
        else Ok i
    end
  else Ok i.

(** What a builder leaves on disk: the metadata behind the first prefix and
    the pages handed to the writer for the shard files. *)
Record Cache : Type := mkCache {
  name_info : string;
  name_shards : list string;
  pages : list SparsePage;
  saved_info : MetaInfo
}.

(** SparsePageSource::CreateRowPage(dmlc::Parser<uint32_t>*, cache_info);
    [src] is the sequence of blocks the parser yields. *)
Definition CreateRowPage (win : bool) (src : list RowBlock) (cache_info : string)
  : Outcome Cache :=
  let page_type := ".row.page"%string in
  do cache_shards <- CacheSpec.resolve_shards win cache_info;
  match cache_shards with
  | [] => Undefined
  | name :: _ =>
      let w := row_page_loop src in
      do i <- close_groups w;
      let out := flush_trailing (page w) (written w) in
      do _ok <- CHECK (Nat.eqb (length (qids_ i)) 0
                       || (Z.of_nat (length (qids_ i)) =? num_row_ i))
                  GroupInvariant;
      Ok (mkCache name ((fun prefix => String.append prefix page_type) <$> cache_shards) out i)
  end.

(** Lines 244-254, the choice made for each batch. *)
Definition push_batch (page_type : string) (num_col : Z) (p batch : SparsePage)
  : Outcome SparsePage :=
  if String.eqb page_type ".row.page"%string then
    Ok (Push p (rows batch))
  else if String.eqb page_type ".col.page"%string then
    Ok (Push p (rows (GetTranspose batch num_col)))
  else if String.eqb page_type ".sorted.col.page"%string then
    Ok (Push p (rows (SortRows (GetTranspose batch num_col))))
  else Abort UnknownPageType.

(** The body of the loop of lines 243-266, on the page in hand, the pages
    written and the byte count. *)
Definition dmatrix_batch (page_type : string) (num_col : Z)
  (acc : SparsePage * list SparsePage * Z) (batch : SparsePage)
  : Outcome (SparsePage * list SparsePage * Z) :=
  let '(p, out, bytes) := acc in
  do p1 <- push_batch page_type num_col p batch;
  Ok (flush_if_full p1 out bytes).

Fixpoint dmatrix_loop (page_type : string) (num_col : Z)
  (batches : list SparsePage) (acc : SparsePage * list SparsePage * Z)
  : Outcome (SparsePage * list SparsePage * Z) :=
  match batches with
  | [] => Ok acc
  | batch :: more =>
      do acc1 <- dmatrix_batch page_type num_col acc batch;
      dmatrix_loop page_type num_col more acc1
  end.

(** SparsePageSource::CreatePageFromDMatrix; the DMatrix is its [Info()] and
    the batches of [GetRowBatches()]. *)
Definition CreatePageFromDMatrix (win : bool) (src_info : MetaInfo)
  (batches : list SparsePage) (cache_info page_type : string) : Outcome Cache :=
  do cache_shards <- CacheSpec.resolve_shards win cache_info;
  match cache_shards with
  | [] => Undefined
  | name :: _ =>
      do acc <- dmatrix_loop page_type (num_col_ src_info) batches
                  (mkPage [] 0, [], 0);
      let '(p, out, _) := acc in
      Ok (mkCache name ((fun prefix => String.append prefix page_type) <$> cache_shards)
            (flush_trailing p out) src_info)
  end.



End WithPageOps.

End Builder.

(** ** The constructor *)

Module Construction.

Import Reader Builder.

(** The files a reader is built from, through the calls whose code is not in
    this file: the streams of dmlc, MetaInfo::LoadBinary and the registry of
    page formats.
    - [open_read name]: the file behind [name], when it can be opened for
      reading (dmlc::Stream::Create(name, "r") and
      dmlc::SeekStream::CreateForRead(name)).
    - [Read_tmagic f]: the count that [Read(&tmagic, sizeof(tmagic))] gives
      back at the head of [f].
    - [LoadBinary f]: MetaInfo::LoadBinary on what follows.
    - [Read_format f]: the string that [Read(&format)] finds at the head of
      [f], when that read succeeds.
    - [registry name]: the page format registered under [name], given by the
      pages that its Read decodes from [fbegin] on, one at each call, until
      it answers false. *)
Class Storage : Type := {
  File : Type;
  open_read : string -> option File;
  Read_tmagic : File -> Z;
  LoadBinary : File -> Outcome MetaInfo;
  Read_format : File -> option string;
  registry : string -> option (File -> list SparsePage)
}.

(** sizeof(int) *)
Definition sizeof_tmagic : Z := 4.

(** What the constructor leaves: the member [info] and the members of the
    cursor. *)
Record Constructed : Type := mkConstructed {
  loaded_info : MetaInfo;
  reader : SparsePageSource
}.

Section WithStorage.

Context {disk : Storage}.

(** Modelled from the spec: dmlc::Stream::Create and
    dmlc::SeekStream::CreateForRead, called without allow_null, stop the
    program when the file cannot be opened (IoError). *)
Definition Stream_Create (name : string) : Outcome File :=
  match open_read name with
  | Some f => Ok f
  | None => Abort IoError
  end.

(** Modelled from the spec: SparsePageFormat::Create fails with
    UnknownFormat when the name is not registered. *)
Definition SparsePageFormat_Create (format : string)
  : Outcome (File -> list SparsePage) :=
  match registry format with
  | Some fmt => Ok fmt
  | None => Abort UnknownFormat
  end.

(** Lines 48-53: the metadata file behind the first prefix. *)
Definition read_info (name_info : string) : Outcome MetaInfo :=
  do finfo <- Stream_Create name_info;
  do _ok <- CHECK (Read_tmagic finfo =? sizeof_tmagic) BadPageHeader;
  LoadBinary finfo.

(** Lines 60-74, the body of the loop: the pages the prefetcher of one shard
    is set up to produce. *)
Definition open_shard (page_type prefix : string) : Outcome (list SparsePage) :=
  let name_row := String.append prefix page_type in
  do fi <- Stream_Create name_row;
  match Read_format fi with
  | None => Abort BadPageHeader
  | Some format =>
      do fmt <- SparsePageFormat_Create format;
      Ok (fmt fi)
  end.

(** Lines 59-75. *)
Fixpoint open_shards (page_type : string) (cache_shards : list string)
  : Outcome (list (list SparsePage)) :=
  match cache_shards with
  | [] => Ok []
  | prefix :: more =>
      do pages <- open_shard page_type prefix;
      do others <- open_shards page_type more;
      Ok (pages :: others)
  end.

(** SparsePageSource::SparsePageSource(cache_info, page_type) *)
Definition SparsePageSource_new (win : bool) (cache_info page_type : string)
  : Outcome Constructed :=
  do cache_shards <- CacheSpec.resolve_shards win cache_info;
  match cache_shards with
  | [] => Undefined
  | name_info :: _ =>
      do i <- read_info name_info;
      do files <- open_shards page_type cache_shards;
      Ok (mkConstructed i (open_source files))
  end.

End WithStorage.

End Construction.

(** ** Reference notions for the cursor *)

Module ReaderSpec.

Import Reader.

(** The page that comes [j]-th (from 0) in the interleaving shard 0, shard 1,
    ..., shard k-1, shard 0, ...: page [j / k] of shard [j mod k]. *)
Definition page_at (files : list (list SparsePage)) (j : nat) : option SparsePage :=
  match files !! (j mod length files)%nat with
  | Some f => f !! (j / length files)%nat
  | None => None
  end.

(** Rows held by a list of pages. *)
Definition rows_in (l : list SparsePage) : Z :=
  foldr (fun p acc => Size p + acc) 0 l.

(** What the cursor depends on in each shard: the pages of the file and the
    number already consumed. *)
Definition slots (s : SparsePageSource) : list (list SparsePage * nat) :=
  (fun it => (source it, cursor it)) <$> prefetchers_ s.

(** The pages not yet consumed. *)
Definition pending (sl : list (list SparsePage * nat)) : list SparsePage :=
  concat ((fun fc => drop (snd fc) (fst fc)) <$> sl).

(** Pages shard [i] has given after [j] pages were yielded in all. *)
Definition turn (k j i : nat) : nat :=
  (j / k + (if (i <? j mod k)%nat then 1 else 0))%nat.

(** The cursor stands before the [j]-th page of the interleaving. *)
Definition at_step (files : list (list SparsePage)) (j : nat)
  (s : SparsePageSource) : Prop :=
  clock_ptr_ s = (j mod length files)%nat /\
  slots s = imap (fun i f => (f, turn (length files) j i)) files.

(** [ys] is the interleaving read from position [j] on, stamped from [base]
    on, and it stops where the shard whose turn it is has no page left. *)
Definition interleaved (files : list (list SparsePage)) (j : nat) (base : Z)
  (ys : list Yield) : Prop :=
  (forall m y, ys !! m = Some y ->
     exists p, page_at files (j + m) = Some p /\
       y = mkYield ((j + m) mod length files)
             (set_base_rowid (wrap64 (base + rows_in (held <$> take m ys))) p)) /\
  page_at files (j + length ys) = None.

End ReaderSpec.

(** ** Reference notions for the builders *)

Module BuilderSpec.

Import Builder.

(** Rows that came with a query id. *)
Definition qid_rows (src : list RowBlock) : nat :=
  sum_list ((fun b => match qid b with Some _ => size b | None => 0%nat end) <$> src).

(** The column indices of the nonzeros of a block, in the order of the scan
    of lines 180-184. *)
Definition block_indices (b : RowBlock) : list Z :=
  let lo := Z.to_nat (at_ (offset b) 0) in
  let hi := Z.to_nat (at_ (offset b) (size b)) in
  (fun j => at_ (index b) j) <$> seq lo (hi - lo).

(** The largest of [start] and the elements of [l]. *)
Definition max_over (start : Z) (l : list Z) : Z := foldr Z.max start l.

(** The group bookkeeping before any boundary was recorded, and the first
    boundary once there is one. *)
Definition groups_ok (w : Work) : Prop :=
  (group_ptr_ (info w) = [] -> group_size w = 0 /\ last_group_id w = uint64_max) /\
  (forall x, head (group_ptr_ (info w)) = Some x -> x = 0).


End BuilderSpec.

(** ** Sample inputs *)

Module Sample.

Import Reader Builder.

(** A page of [n] rows without entries. *)
Definition empty_rows (n : nat) : SparsePage := mkPage (repeat [] n) 0.

(** Three shards of two ten-row pages each. *)
Definition three_shards : SparsePageSource :=
  mkSource 0 None 0
    [ mkIter [empty_rows 10; empty_rows 10] 0 0;
      mkIter [empty_rows 10; empty_rows 10] 0 0;
      mkIter [empty_rows 10; empty_rows 10] 0 0 ].

(** Two shards, the second one page short of the first. *)
Definition uneven_shards : SparsePageSource :=
  mkSource 0 None 0
    [ mkIter [empty_rows 3; empty_rows 4; empty_rows 5] 0 0;
      mkIter [empty_rows 6] 0 0 ].

(** A block of rows without entries that carries the query ids [q]. *)
Definition qid_block (q : list Z) : RowBlock :=
  mkBlock (length q) (repeat 0 (S (length q))) None None (Some q) [] None.

(** A block of one row whose entries have the column indices [idx]. *)
Definition one_row (idx : list Z) : RowBlock :=
  mkBlock 1 [0; Z.of_nat (length idx)] None None None idx None.

(** Page operations to run the builders with: 8 bytes for each offset and
    each entry, a budget of 64 bytes, pages left as they are by the two
    column transforms. *)
Definition sample_ops : PageOps :=
  {| MemCostBytes p := 8 * (Size p + 1) + 8 * data_Size p;
     GetTranspose p _ := p;
     SortRows p := p;
     kPageSize := 64 |}.

(** The MetaInfo of a matrix of two rows of which one has a query id. *)
Definition partial_qids_info : MetaInfo := mkInfo 2 0 0 [] [] [7] [].

End Sample.

Import Reader ReaderSpec Builder BuilderSpec Sample.

(** ** The existence check *)

Module Existence.

(** Lines 120-124.  [can_open name] tells whether
    [dmlc::Stream::Create(name, "r", true)] hands back a stream rather than
    a null pointer. *)
Fixpoint shards_exist (can_open : string -> bool) (page_type : string)
  (cache_shards : list string) : bool :=
  match cache_shards with
  | [] => true
  | prefix :: more =>
      if can_open (String.append prefix page_type)
      then shards_exist can_open page_type more
      else false
  end.

(** SparsePageSource::CacheExist *)
Definition CacheExist (win : bool) (can_open : string -> bool)
  (cache_info page_type : string) : Outcome bool :=
  do cache_shards <- CacheSpec.resolve_shards win cache_info;
  match cache_shards with
  | [] => Undefined
  | name_info :: _ =>
      if can_open name_info
      then Ok (shards_exist can_open page_type cache_shards)
      else Ok false
  end.

End Existence.

(** ** Further reference notions *)

Module MoreSpec.

Import Reader Builder Construction.

(** A metadata file the constructor can load: it opens, its head gives the
    four bytes of the magic, and LoadBinary returns. *)
Definition meta_readable {disk : Storage} (name : string) : Prop :=
  exists f i,
    open_read name = Some f /\ Read_tmagic f = 4 /\ LoadBinary f = Ok i.

(** The pages behind a shard file that opens, names its format at its head,
    and whose format is registered. *)
Definition shard_pages {disk : Storage} (name : string)
  : option (list SparsePage) :=
  match open_read name with
  | None => None
  | Some f =>
      match Read_format f with
      | None => None
      | Some format =>
          match registry format with
          | None => None
          | Some fmt => Some (fmt f)
          end
      end
  end.

(** The cells handed back to each shard so far. *)
Definition recycled_cells (s : SparsePageSource) : list nat :=
  recycled <$> prefetchers_ s.

(** The pages of a pass as they sit in the files, without the stamp. *)
Definition unstamped (ys : list Yield) : list (list (list Entry)) :=
  (fun y => rows (held y)) <$> ys.

(** The rows a builder holds: those of the pages given to the writer, then
    those of the page in hand. *)
Definition stored_rows (out : list SparsePage) (p : SparsePage)
  : list (list Entry) :=
  concat (rows <$> out) ++ rows p.

(** The rows of all the pages of a cache. *)
Definition cache_rows (c : Cache) : list (list Entry) :=
  concat (rows <$> pages c).

(** The rows of a block sequence, in order. *)
Definition source_rows (src : list RowBlock) : list (list Entry) :=
  concat (block_rows <$> src).

(** Rows of all blocks. *)
Definition total_rows (src : list RowBlock) : nat :=
  sum_list (size <$> src).

(** The query ids the loop of lines 169-176 reads, block after block. *)
Definition seen_qids (src : list RowBlock) : list Z :=
  concat ((fun b => match qid b with
                    | Some q => at_ q <$> seq 0 (size b)
                    | None => []
                    end) <$> src).

(** The positions, counted from [n], at which a stream of query ids starts
    a new run; [prev] is the id before the stream, if any. *)
Fixpoint run_starts (prev : option Z) (n : Z) (qs : list Z) : list Z :=
  match qs with
  | [] => []
  | q :: more =>
      (if decide (prev = Some q) then [] else [n])
        ++ run_starts (Some q) (n + 1) more
  end.

(** Group boundaries of a stream of query ids: the start of every run of
    equal ids and, when there is any id, the length of the stream. *)
Definition group_bounds (qs : list Z) : list Z :=
  match qs with
  | [] => []
  | _ :: _ => run_starts None 0 qs ++ [Z.of_nat (length qs)]
  end.

(** The id the builder remembers, if it has seen one. *)
Definition prev_of (w : Work) : option Z :=
  if last_group_id w =? uint64_max then None else Some (last_group_id w).

(** A block whose arrays are as long as dmlc promises: [size + 1] offsets
    that do not decrease, and a query id for every row when there are any. *)
Definition wf_block (b : RowBlock) : Prop :=
  (forall r, (r < size b)%nat -> 0 <= at_ (offset b) r <= at_ (offset b) (S r)) /\
  (forall q, qid b = Some q -> (size b <= length q)%nat).

(** The nonzeros of a block sequence as the counter of line 179 sees them. *)
Definition total_nonzero (src : list RowBlock) : Z :=
  foldr (fun b acc => (at_ (offset b) (size b) - at_ (offset b) 0) + acc) 0 src.

(** All column indices of a block sequence. *)
Definition source_indices (src : list RowBlock) : list Z :=
  concat (block_indices <$> src).

(** The rows one batch adds to the page in hand under a page type that is
    one of the three. *)
Definition pushed_rows {ops : PageOps} (page_type : string) (num_col : Z)
  (batch : SparsePage) : list (list Entry) :=
  if String.eqb page_type ".row.page" then rows batch
  else if String.eqb page_type ".col.page" then rows (GetTranspose batch num_col)
  else rows (SortRows (GetTranspose batch num_col)).

End MoreSpec.

(** ** Further sample inputs *)

Module MoreSample.

Import Reader Builder Construction.

(** A disk that holds the cache "a:b" of row pages written in the format
    "raw": a file is its magic count, its MetaInfo, its format name and its
    pages.  The shard behind "a" has two pages, the one behind "b" one. *)
Definition cache_disk : Storage :=
  {| File := Z * MetaInfo * option string * list SparsePage;
     open_read name :=
       if String.eqb name "a" then Some (4, partial_qids_info, None, [])
       else if String.eqb name "a.row.page"
       then Some (0, empty_info, Some "raw"%string, [empty_rows 3; empty_rows 4])
       else if String.eqb name "b.row.page"
       then Some (0, empty_info, Some "raw"%string, [empty_rows 6])
       else if String.eqb name "a.col.page"
       then Some (0, empty_info, Some "csc"%string, [empty_rows 1])
       else None;
     Read_tmagic f := fst (fst (fst f));
     LoadBinary f := Ok (snd (fst (fst f)));
     Read_format f := snd (fst f);
     registry format :=
       if String.eqb format "raw" then Some snd else None |}.

(** A file system in which the files of the cache "a:b" of row pages exist
    and nothing else does. *)
Definition row_cache_files (name : string) : bool :=
  String.eqb name "a" || String.eqb name "a.row.page"
  || String.eqb name "b.row.page".

(** A reader in the middle of a pass over two shards: shard 0 has served the
    page still held, the clock points at shard 1. *)
Definition mid_pass : SparsePageSource :=
  mkSource 3 (Some (mkPage (repeat [] 3) 0)) 1
    [ mkIter [empty_rows 3; empty_rows 4] 1 0;
      mkIter [empty_rows 6; empty_rows 2] 0 0 ].

(** Two blocks: rows with entries and query ids, then more of the same. *)
Definition block_one : RowBlock :=
  mkBlock 3 [0; 2; 2; 3] None None (Some [5; 5; 8]) [1; 4; 0] None.

Definition block_two : RowBlock :=
  mkBlock 2 [3; 4; 6] None None (Some [8; 9]) [0; 0; 0; 2; 3; 7] None.

(** A block of two rows without query ids. *)
Definition block_plain : RowBlock :=
  mkBlock 2 [0; 1; 2] None None None [3; 1] None.

End MoreSample.

Import Construction Existence MoreSpec MoreSample.

(** * Facts *)

Lemma wrap64_small x : 0 <= x < 2 ^ 64 -> wrap64 x = x.
Proof. intros H. unfold wrap64. now apply Z.mod_small. Qed.

Lemma wrap32_small x : 0 <= x < 2 ^ 32 -> wrap32 x = x.
Proof. intros H. unfold wrap32. now apply Z.mod_small. Qed.

Lemma wrap64_range x : 0 <= wrap64 x < 2 ^ 64.
Proof. unfold wrap64. apply Z.mod_pos_bound. lia. Qed.

Lemma wrap32_range x : 0 <= wrap32 x < 2 ^ 32.
Proof. unfold wrap32. apply Z.mod_pos_bound. lia. Qed.

Lemma wrap64_add_l a b : wrap64 (wrap64 a + b) = wrap64 (a + b).
Proof. unfold wrap64. apply Zplus_mod_idemp_l. Qed.

(** ** The shard path resolver *)

Section CacheSpecFacts.

Import CacheSpec.

Local Open Scope string_scope.

Lemma getline_loop_nil delim s : forall item,
  getline_loop delim s item = [] <-> s = EmptyString /\ item = EmptyString.
Proof.
  induction s as [| c rest IH]; intros item; simpl.
  - destruct (String.eqb_spec item EmptyString) as [-> | Hne].
    + split; auto.
    + split; [discriminate | intros [_ H]; contradiction].
  - destruct (Ascii.eqb c delim).
    + split; [discriminate | intros [H _]; discriminate].
    + rewrite IH. split; intros [H1 H2]; [| discriminate].
      destruct item; discriminate.
Qed.

(** Split yields no piece for the empty text only. *)
Lemma Split_nil s delim : Split s delim = [] <-> s = EmptyString.
Proof.
  unfold Split. rewrite getline_loop_nil. split; [intros [H _] | intros H]; auto.
Qed.

Lemma substring_all s : substring 0 (String.length s) s = s.
Proof. induction s as [| c s IH]; simpl; [reflexivity | now rewrite IH]. Qed.

Lemma substring_none s : substring 0 0 s = EmptyString.
Proof. destruct s; reflexivity. Qed.

(** Without drive letters, or without a drive prefix, the shards are the
    pieces between the colons. *)
Lemma GetCacheShards_plain win cache_info :
  win && has_drive_letter cache_info = false ->
  GetCacheShards win cache_info = Ok (Split cache_info ":").
Proof. intros H. unfold GetCacheShards. now rewrite H. Qed.

(** With a drive prefix and something after it, the prefix stays in front of
    the first piece and the colon after the letter does not split. *)
Lemma GetCacheShards_drive c0 rest first others :
  isalpha c0 = true ->
  Split rest ":" = first :: others ->
  GetCacheShards true (String c0 (String ":" rest))
  = Ok (String c0 (String ":" first) :: others).
Proof.
  intros Halpha Hsplit. unfold GetCacheShards. simpl has_drive_letter.
  rewrite Halpha. simpl andb. cbv iota.
  replace (substring 2 (String.length (String c0 (String ":" rest)) - 2)
             (String c0 (String ":" rest))) with rest.
  - rewrite Hsplit. simpl. now rewrite substring_none.
  - simpl. rewrite Nat.sub_0_r. symmetry. apply substring_all.
Qed.

(** The resolver has no defined result exactly for a bare drive letter on a
    platform with drive letters. *)
Lemma GetCacheShards_undefined win cache_info :
  GetCacheShards win cache_info = Undefined <->
  win = true /\ has_drive_letter cache_info = true /\ String.length cache_info = 2%nat.
Proof.
  unfold GetCacheShards.
  destruct win; simpl andb; [| split; [discriminate | intros [H _]; discriminate]].
  destruct cache_info as [| c0 [| c1 rest]]; simpl has_drive_letter;
    try (split; [discriminate | intros (_ & H & _); discriminate]).
  destruct (isalpha c0 && Ascii.eqb c1 ":") eqn:Hd;
    [| split; [discriminate | intros (_ & H & _); discriminate]].
  replace (substring 2 (String.length (String c0 (String c1 rest)) - 2)
             (String c0 (String c1 rest))) with rest
    by (simpl; rewrite Nat.sub_0_r; symmetry; apply substring_all).
  destruct (Split rest ":") as [| first others] eqn:Hsplit.
  - apply Split_nil in Hsplit. subst rest. simpl. split; auto.
  - split; [discriminate |]. intros (_ & _ & Hlen). simpl in Hlen.
    destruct rest; [| discriminate]. discriminate Hsplit.
Qed.

(** An empty list of shards is the fatal error of CHECK_NE. *)
Lemma resolve_shards_empty win cache_info :
  GetCacheShards win cache_info = Ok [] ->
  resolve_shards win cache_info = Abort BadCacheSpec.
Proof. intros H. unfold resolve_shards. now rewrite H. Qed.

Lemma resolve_shards_some win cache_info first others :
  GetCacheShards win cache_info = Ok (first :: others) ->
  resolve_shards win cache_info = Ok (first :: others).
Proof. intros H. unfold resolve_shards. now rewrite H. Qed.

(** The sample specifications of the design document.  With drive letters
    the one-letter prefix "a" of "a:b:c" counts as a drive. *)
Example shards_of_three_prefixes :
  resolve_shards false "a:b:c" = Ok ["a"; "b"; "c"] /\
  resolve_shards true "a:b:c" = Ok ["a:b"; "c"] /\
  resolve_shards true "ab:c:d" = Ok ["ab"; "c"; "d"].
Proof. repeat split. Qed.

Example shards_with_drive_letter :
  resolve_shards true "C:\tmp\x:y" = Ok ["C:\tmp\x"; "y"] /\
  resolve_shards false "C:\tmp\x:y" = Ok ["C"; "\tmp\x"; "y"].
Proof. split; reflexivity. Qed.

End CacheSpecFacts.

(** ** The cursor *)

Section ReaderFacts.

Local Open Scope nat_scope.

Lemma succ_div_mod k j :
  0 < k ->
  (j mod k + 1 < k /\ (j + 1) / k = j / k /\ (j + 1) mod k = j mod k + 1) \/
  (j mod k + 1 = k /\ (j + 1) / k = j / k + 1 /\ (j + 1) mod k = 0).
Proof.
  intros Hk.
  pose proof (Nat.div_mod_eq j k) as Hj.
  pose proof (Nat.div_mod_eq (j + 1) k) as Hj1.
  pose proof (Nat.mod_upper_bound j k ltac:(lia)) as Hr.
  pose proof (Nat.mod_upper_bound (j + 1) k ltac:(lia)) as Hr1.
  destruct (decide (j mod k + 1 < k)) as [Hlt | Hge].
  - left. split; [assumption |].
    apply (Nat.div_mod_unique k); lia.
  - right. split; [lia |].
    apply (Nat.div_mod_unique k); lia.
Qed.

Lemma turn_zero k i : 0 < k -> turn k 0 i = 0.
Proof.
  intros Hk. unfold turn.
  rewrite Nat.Div0.div_0_l, Nat.Div0.mod_0_l. reflexivity.
Qed.

Lemma turn_at_clock k j : 0 < k -> turn k j (j mod k) = j / k.
Proof.
  intros Hk. unfold turn.
  rewrite (proj2 (Nat.ltb_ge _ _)) by lia. lia.
Qed.

Lemma turn_succ k j i :
  0 < k -> i < k ->
  turn k (j + 1) i = turn k j i + (if decide (i = j mod k) then 1 else 0).
Proof.
  intros Hk Hi. unfold turn.
  destruct (succ_div_mod k j Hk) as [(Hlt & -> & ->) | (Heq & -> & ->)].
  - destruct (decide (i = j mod k)) as [-> | Hne].
    + rewrite (proj2 (Nat.ltb_lt _ _)) by lia.
      rewrite (proj2 (Nat.ltb_ge _ _)) by lia. lia.
    + destruct (decide (i < j mod k)).
      * rewrite !(proj2 (Nat.ltb_lt _ _)) by lia. lia.
      * rewrite !(proj2 (Nat.ltb_ge _ _)) by lia. lia.
  - rewrite (proj2 (Nat.ltb_ge i 0)) by lia.
    destruct (decide (i = j mod k)) as [-> | Hne].
    + rewrite (proj2 (Nat.ltb_ge _ _)) by lia. lia.
    + rewrite (proj2 (Nat.ltb_lt _ _)) by lia. lia.
Qed.

Lemma slots_length s : length (slots s) = length (prefetchers_ s).
Proof. unfold slots. apply length_fmap. Qed.

Lemma slots_lookup s i f c :
  slots s !! i = Some (f, c) ->
  exists it, prefetchers_ s !! i = Some it /\ source it = f /\ cursor it = c.
Proof.
  unfold slots. rewrite list_lookup_fmap. intros H.
  destruct (prefetchers_ s !! i) as [it |]; [| discriminate].
  exists it. simpl in H. inversion H. auto.
Qed.

Lemma recycle_page_spec s :
  clock_ptr_ s < length (prefetchers_ s) ->
  exists s1,
    recycle_page s = Ok s1 /\ base_rowid_ s1 = base_rowid_ s /\
    clock_ptr_ s1 = clock_ptr_ s /\ page_ s1 = None /\ slots s1 = slots s.
Proof.
  intros Hclock. unfold recycle_page.
  destruct (page_ s) as [held_page |] eqn:Hpage.
  - destruct (Nat.eqb_spec (length (prefetchers_ s)) 0) as [Hz | Hnz]; [lia |].
    set (i := (clock_ptr_ s + length (prefetchers_ s) - 1) mod length (prefetchers_ s)).
    assert (Hi : i < length (prefetchers_ s)) by (apply Nat.mod_upper_bound; lia).
    destruct (lookup_lt_is_Some_2 _ _ Hi) as [it Hit].
    rewrite Hit. eexists. split; [reflexivity |]. simpl.
    repeat split.
    unfold slots. simpl. rewrite list_fmap_insert.
    apply list_insert_id. rewrite list_lookup_fmap, Hit. reflexivity.
  - exists s. auto.
Qed.

Lemma recycle_page_idle s : page_ s = None -> recycle_page s = Ok s.
Proof. intros H. unfold recycle_page. now rewrite H. Qed.

(** One call of Next, read off the slot under the clock pointer. *)
Lemma Next_spec s f c :
  slots s !! clock_ptr_ s = Some (f, c) ->
  match f !! c with
  | Some p =>
      exists s',
        Next s = Ok (true, s') /\
        base_rowid_ s' = wrap64 (base_rowid_ s + Size p) /\
        page_ s' = Some (set_base_rowid (base_rowid_ s) p) /\
        clock_ptr_ s' = (clock_ptr_ s + 1) mod length (slots s) /\
        slots s' = <[clock_ptr_ s := (f, S c)]> (slots s)
  | None =>
      exists s',
        Next s = Ok (false, s') /\
        base_rowid_ s' = base_rowid_ s /\ page_ s' = None /\
        clock_ptr_ s' = clock_ptr_ s /\ slots s' = slots s /\
        Next s' = Ok (false, s')
  end.
Proof.
  intros Hslot.
  assert (Hclock : clock_ptr_ s < length (prefetchers_ s)).
  { rewrite <- slots_length. eapply lookup_lt_Some; eassumption. }
  destruct (recycle_page_spec s Hclock) as (s1 & Hrec & Hbase & Hptr & Hnone & Hsl).
  assert (Hslot1 : slots s1 !! clock_ptr_ s1 = Some (f, c)) by now rewrite Hsl, Hptr.
  destruct (slots_lookup _ _ _ _ Hslot1) as (it & Hit & Hsrc & Hcur).
  unfold Next. rewrite Hrec. simpl. rewrite Hit. unfold iter_Next.
  rewrite Hsrc, Hcur.
  destruct (f !! c) as [p |] eqn:Hp.
  - eexists. split; [reflexivity |]. simpl.
    rewrite Hbase, Hptr, <- Hsl, slots_length.
    repeat split.
    unfold slots at 1. simpl. rewrite list_fmap_insert. simpl.
    reflexivity.
  - exists s1. repeat split; try assumption.
    rewrite (recycle_page_idle s1 Hnone). simpl. rewrite Hit.
    unfold iter_Next. now rewrite Hsrc, Hcur, Hp.
Qed.

(** The clock pointer moves on a successful Next and on no other. *)
Lemma Next_clock s b s' :
  Next s = Ok (b, s') ->
  clock_ptr_ s' =
    if b then (clock_ptr_ s + 1) mod length (prefetchers_ s) else clock_ptr_ s.
Proof.
  unfold Next, recycle_page. intros H.
  destruct (page_ s) as [held_page |]; simpl in H.
  - destruct (Nat.eqb (length (prefetchers_ s)) 0); [discriminate |].
    destruct (prefetchers_ s !! _) as [it0 |]; [| discriminate].
    simpl in H.
    destruct (_ !! clock_ptr_ s) as [it |]; [| discriminate].
    destruct (iter_Next it) as [[p it'] |]; inversion H; subst; simpl.
    + now rewrite length_insert.
    + reflexivity.
  - destruct (prefetchers_ s !! clock_ptr_ s) as [it |]; [| discriminate].
    destruct (iter_Next it) as [[p it'] |]; inversion H; subst; reflexivity.
Qed.

Lemma rows_in_nonneg l : (0 <= rows_in l)%Z.
Proof. induction l as [| p l IH]; simpl; unfold Size in *; lia. Qed.

Lemma rows_in_perm l l' : l ≡ₚ l' -> rows_in l = rows_in l'.
Proof. induction 1; simpl; lia. Qed.

Lemma rows_in_app l l' : rows_in (l ++ l') = (rows_in l + rows_in l')%Z.
Proof. induction l as [| p l IH]; simpl; lia. Qed.

Lemma pending_insert sl i f c p :
  sl !! i = Some (f, c) -> f !! c = Some p ->
  pending sl ≡ₚ p :: pending (<[i := (f, S c)]> sl).
Proof.
  intros Hsl Hp. unfold pending.
  assert (Hi : i < length sl) by (eapply lookup_lt_Some; eassumption).
  rewrite (insert_take_drop sl i _ Hi).
  rewrite <- (take_drop_middle sl i (f, c) Hsl) at 1.
  rewrite !fmap_app, !fmap_cons, !concat_app, !concat_cons. simpl.
  rewrite (drop_S f p c Hp). simpl.
  symmetry. apply Permutation_middle.
Qed.

Lemma pending_fresh files : pending ((fun f => (f, 0)) <$> files) = concat files.
Proof.
  unfold pending. induction files as [| f files IH]; simpl; [reflexivity |].
  f_equal. exact IH.
Qed.

Lemma slots_at_start (files : list (list SparsePage)) :
  0 < length files ->
  imap (fun i f => (f, turn (length files) 0 i)) files = (fun f => (f, 0)) <$> files.
Proof.
  intros Hk. rewrite <- (imap_const (fun f : list SparsePage => (f, 0))).
  apply imap_ext. intros i f _. simpl. now rewrite turn_zero.
Qed.

Section OneCache.

Variable files : list (list SparsePage).
Hypothesis some_shard : 0 < length files.

Lemma at_step_slot j s :
  at_step files j s ->
  exists f, files !! (j mod length files) = Some f /\
            slots s !! clock_ptr_ s = Some (f, j / length files).
Proof.
  intros [Hclock Hsl].
  assert (Hlt : j mod length files < length files)
    by (apply Nat.mod_upper_bound; lia).
  destruct (lookup_lt_is_Some_2 _ _ Hlt) as [f Hf].
  exists f. split; [assumption |].
  rewrite Hclock, Hsl, list_lookup_imap, Hf. simpl.
  now rewrite turn_at_clock.
Qed.

Lemma at_step_advance j s s' f :
  at_step files j s ->
  files !! (j mod length files) = Some f ->
  clock_ptr_ s' = (clock_ptr_ s + 1) mod length (slots s) ->
  slots s' = <[clock_ptr_ s := (f, S (j / length files))]> (slots s) ->
  at_step files (j + 1) s'.
Proof.
  intros [Hclock Hsl] Hf Hclock' Hsl'.
  assert (Hlen : length (slots s) = length files) by now rewrite Hsl, length_imap.
  split.
  - rewrite Hclock', Hclock, Hlen. apply Nat.Div0.add_mod_idemp_l.
  - rewrite Hsl', Hclock, Hsl. apply list_eq. intros i.
    rewrite list_lookup_imap.
    destruct (decide (i = j mod length files)) as [-> | Hne].
    + rewrite list_lookup_insert_eq
        by (rewrite length_imap; apply Nat.mod_upper_bound; lia).
      rewrite Hf. simpl. f_equal. f_equal.
      rewrite turn_succ by (try apply Nat.mod_upper_bound; lia).
      rewrite turn_at_clock by lia.
      destruct (decide (j mod length files = j mod length files)); lia.
    + rewrite list_lookup_insert_ne by congruence.
      rewrite list_lookup_imap.
      destruct (files !! i) as [g |] eqn:Hg; [| reflexivity].
      simpl. f_equal. f_equal.
      assert (i < length files) by (eapply lookup_lt_Some; eassumption).
      rewrite turn_succ by lia.
      destruct (decide (i = j mod length files)); [congruence | lia].
Qed.

Lemma page_at_slot j f :
  files !! (j mod length files) = Some f -> page_at files j = f !! (j / length files).
Proof. intros Hf. unfold page_at. now rewrite Hf. Qed.

Lemma drain_at_step fuel : forall j s,
  at_step files j s ->
  (0 <= base_rowid_ s < 2 ^ 64)%Z ->
  length (pending (slots s)) < fuel ->
  exists ys sf,
    drain fuel s = Some (Ok (ys, sf)) /\
    interleaved files j (base_rowid_ s) ys /\
    at_step files (j + length ys) sf /\
    page_ sf = None /\
    base_rowid_ sf = wrap64 (base_rowid_ s + rows_in (held <$> ys)) /\
    Next sf = Ok (false, sf) /\
    (rows_in (held <$> ys) <= rows_in (pending (slots s)))%Z.
Proof.
  induction fuel as [| fuel IH]; intros j s Hstep Hbase Hfuel; [lia |].
  destruct (at_step_slot j s Hstep) as (f & Hf & Hslot).
  pose proof (Next_spec s f (j / length files) Hslot) as Hnext.
  destruct (f !! (j / length files)) as [p |] eqn:Hp.
  - destruct Hnext as (s' & Hn & Hb' & Hpage' & Hclock' & Hsl').
    pose proof (at_step_advance j s s' f Hstep Hf Hclock' Hsl') as Hstep'.
    pose proof (pending_insert _ _ _ _ _ Hslot Hp) as Hperm.
    rewrite <- Hsl' in Hperm.
    assert (Hfuel' : length (pending (slots s')) < fuel).
    { apply Permutation_length in Hperm. simpl in Hperm. lia. }
    assert (Hbase' : (0 <= base_rowid_ s' < 2 ^ 64)%Z)
      by (rewrite Hb'; apply wrap64_range).
    destruct (IH (j + 1) s' Hstep' Hbase' Hfuel')
      as (ys & sf & Hdrain & [Hys Hend] & Hsf & Hnone & Hbsf & Hstay & Hrows).
    exists (mkYield (clock_ptr_ s) (set_base_rowid (base_rowid_ s) p) :: ys), sf.
    assert (Hsize : Size (set_base_rowid (base_rowid_ s) p) = Size p) by reflexivity.
    split; [| split; [split |]].
    + simpl. rewrite Hn. unfold Value. rewrite Hpage', Hdrain. reflexivity.
    + intros [| m] y Hy.
      * simpl in Hy. inversion Hy; subst y. exists p. split.
        -- rewrite Nat.add_0_r. now rewrite (page_at_slot j f Hf).
        -- simpl. rewrite Nat.add_0_r, Z.add_0_r, wrap64_small by assumption.
           destruct Hstep as [-> _]. reflexivity.
      * simpl in Hy. destruct (Hys m y Hy) as (q & Hq & Hyq).
        exists q. split.
        -- now replace (j + S m) with (j + 1 + m) by lia.
        -- rewrite Hyq. replace (j + S m) with (j + 1 + m) by lia.
           f_equal. f_equal. simpl. rewrite Hsize, Hb', wrap64_add_l.
           now rewrite Z.add_assoc.
    + simpl. now replace (j + S (length ys)) with (j + 1 + length ys) by lia.
    + simpl. replace (j + S (length ys)) with (j + 1 + length ys) by lia.
      split; [exact Hsf |]. split; [exact Hnone |].
      split; [| split; [exact Hstay |]].
      * rewrite Hbsf, Hb', wrap64_add_l, Hsize. now rewrite Z.add_assoc.
      * rewrite (rows_in_perm _ _ Hperm). simpl. rewrite Hsize.
        apply Z.add_le_mono_l. exact Hrows.
  - destruct Hnext as (s' & Hn & Hb' & Hpage' & Hclock' & Hsl' & Hstay).
    exists [], s'. simpl. rewrite Hn, Nat.add_0_r.
    split; [reflexivity |]. split; [split |].
    + intros m y Hy. destruct m; discriminate.
    + simpl. rewrite Nat.add_0_r. now rewrite (page_at_slot j f Hf).
    + split; [| split; [exact Hpage' | split; [| split; [exact Hstay |]]]].
      * destruct Hstep as [Hc Hs]. split; congruence.
      * rewrite Hb', Z.add_0_r, wrap64_small; auto.
      * apply rows_in_nonneg.
Qed.

End OneCache.

Lemma drain_more_fuel fuel : forall fuel' s r,
  fuel <= fuel' -> drain fuel s = Some r -> drain fuel' s = Some r.
Proof.
  induction fuel as [| fuel IH]; intros fuel' s r Hle Hd; [discriminate |].
  destruct fuel' as [| fuel']; [lia |].
  simpl in *.
  destruct (Next s) as [[[|] s'] | e |]; try exact Hd.
  destruct (Value s') as [p | e |]; try exact Hd.
  destruct (drain fuel s') as [r' |] eqn:Hr'; [| discriminate].
  rewrite (IH fuel' s' r' ltac:(lia) Hr'). exact Hd.
Qed.

(** A pass is decided by the counter, the clock pointer and the slots. *)
Lemma drain_same fuel : forall s t ys sf,
  clock_ptr_ s = clock_ptr_ t -> base_rowid_ s = base_rowid_ t ->
  slots s = slots t -> clock_ptr_ s < length (slots s) ->
  drain fuel s = Some (Ok (ys, sf)) ->
  exists tf, drain fuel t = Some (Ok (ys, tf)).
Proof.
  induction fuel as [| fuel IH]; intros s t ys sf Hc Hb Hsl Hlt Hd; [discriminate |].
  destruct (lookup_lt_is_Some_2 _ _ Hlt) as [[f c] Hslot].
  assert (Hslot' : slots t !! clock_ptr_ t = Some (f, c)) by now rewrite <- Hsl, <- Hc.
  pose proof (Next_spec s f c Hslot) as Hs.
  pose proof (Next_spec t f c Hslot') as Ht.
  simpl in *.
  destruct (f !! c) as [p |].
  - destruct Hs as (s' & Hn & Hb1 & Hp1 & Hc1 & Hsl1).
    destruct Ht as (t' & Hn' & Hb2 & Hp2 & Hc2 & Hsl2).
    rewrite Hn in Hd. rewrite Hn'. unfold Value in *.
    rewrite Hp1 in Hd. rewrite Hp2.
    destruct (drain fuel s') as [[[ys' sf'] | e |] |] eqn:Hd'; try discriminate.
    inversion Hd; subst ys sf.
    destruct (IH s' t' ys' sf') as [tf Htf]; try assumption.
    + congruence.
    + congruence.
    + congruence.
    + rewrite Hc1, Hsl1, length_insert. apply Nat.mod_upper_bound. lia.
    + exists tf. rewrite Htf. now rewrite Hb, Hc.
  - destruct Hs as (s' & Hn & _). destruct Ht as (t' & Hn' & _).
    rewrite Hn in Hd. rewrite Hn'. inversion Hd; subst. now exists t'.
Qed.

Lemma Next_times_false n s :
  Next s = Ok (false, s) -> Next_times n s = Ok (repeat false n, s).
Proof.
  intros Hs. induction n as [| n IH]; simpl; [reflexivity |].
  rewrite Hs. simpl. rewrite IH. reflexivity.
Qed.

Lemma slots_BeforeFirst s :
  slots (BeforeFirst s) = (fun f => (f, 0)) <$> (source <$> prefetchers_ s).
Proof.
  unfold slots, BeforeFirst. simpl.
  rewrite <- !list_fmap_compose. reflexivity.
Qed.

Lemma at_step_BeforeFirst s :
  prefetchers_ s <> [] -> at_step (source <$> prefetchers_ s) 0 (BeforeFirst s).
Proof.
  intros Hne.
  assert (0 < length (source <$> prefetchers_ s)).
  { rewrite length_fmap. destruct (prefetchers_ s); [congruence | simpl; lia]. }
  split.
  - simpl. now rewrite Nat.Div0.mod_0_l.
  - now rewrite slots_at_start, slots_BeforeFirst.
Qed.

Lemma at_step_sources files j s :
  at_step files j s -> source <$> prefetchers_ s = files.
Proof.
  intros [_ Hsl].
  assert (H : fst <$> slots s = files).
  { rewrite Hsl. apply list_eq. intros i.
    rewrite list_lookup_fmap, list_lookup_imap.
    now destruct (files !! i). }
  rewrite <- H. unfold slots. rewrite <- list_fmap_compose. reflexivity.
Qed.

Lemma open_source_start files :
  base_rowid_ (open_source files) = 0%Z /\ clock_ptr_ (open_source files) = 0 /\
  page_ (open_source files) = None /\
  slots (open_source files) = (fun f => (f, 0)) <$> files.
Proof.
  repeat split. unfold slots, open_source. simpl.
  rewrite <- list_fmap_compose. reflexivity.
Qed.

(** Rewinding a reader that was just constructed changes nothing. *)
Lemma BeforeFirst_open_source files :
  BeforeFirst (open_source files) = open_source files.
Proof.
  unfold BeforeFirst, open_source. simpl. f_equal.
  rewrite <- list_fmap_compose. reflexivity.
Qed.

(** The pass that starts from a rewound reader. *)
Lemma pass_after_BeforeFirst s :
  prefetchers_ s <> [] ->
  exists ys sf,
    (forall fuel, length (concat (source <$> prefetchers_ s)) < fuel ->
       drain fuel (BeforeFirst s) = Some (Ok (ys, sf))) /\
    interleaved (source <$> prefetchers_ s) 0 0 ys /\
    at_step (source <$> prefetchers_ s) (length ys) sf /\
    page_ sf = None /\
    base_rowid_ sf = wrap64 (rows_in (held <$> ys)) /\
    Next sf = Ok (false, sf) /\
    (rows_in (held <$> ys) <= rows_in (concat (source <$> prefetchers_ s)))%Z.
Proof.
  intros Hne.
  set (files := source <$> prefetchers_ s).
  assert (Hk : 0 < length files).
  { unfold files. rewrite length_fmap.
    destruct (prefetchers_ s); [congruence | simpl; lia]. }
  pose proof (at_step_BeforeFirst s Hne) as Hstart. fold files in Hstart.
  assert (Hpend : pending (slots (BeforeFirst s)) = concat files).
  { rewrite slots_BeforeFirst. apply pending_fresh. }
  destruct (drain_at_step files Hk (S (length (concat files))) 0 (BeforeFirst s))
    as (ys & sf & Hd & Hint & Hat & Hnone & Hb & Hstay & Hrows).
  - exact Hstart.
  - simpl. lia.
  - rewrite Hpend. lia.
  - exists ys, sf. simpl in *. rewrite Hpend in Hrows.
    split; [| auto 10].
    intros fuel Hfuel. apply (drain_more_fuel (S (length (concat files)))); [lia | exact Hd].
Qed.

(** With one shard a page short, the pass stops at its turn and the last page
    of the other shard is never yielded. *)
Example uneven_shards_pass :
  exists sf,
    drain 4 (BeforeFirst uneven_shards)
    = Some (Ok ([ mkYield 0 (mkPage (repeat [] 3) 0);
                  mkYield 1 (mkPage (repeat [] 6) 3);
                  mkYield 0 (mkPage (repeat [] 4) 9) ], sf)) /\
    clock_ptr_ sf = 1 /\ base_rowid_ sf = 13%Z.
Proof. eexists. split; [vm_compute; reflexivity |]. split; reflexivity. Qed.

End ReaderFacts.

(** ** Statements about the cursor *)

(** C1. For a reader over k >= 1 shards, the pass that follows BeforeFirst
    ends after finitely many calls of Next; the page yielded j-th (from 0)
    is page [j / k] of shard [j mod k], so the shards are visited in the order
    0, 1, ..., k-1, 0, ...; the pass stops at the first position whose shard
    has no such page, whatever the other shards still hold; from there on
    every further Next answers false and leaves the reader as it is; and a
    call of Next moves the clock pointer exactly when it answers true. *)
Theorem C1_round_robin_pass (s : SparsePageSource) :
  prefetchers_ s <> [] ->
  exists ys sf,
    (forall fuel, (length (concat (source <$> prefetchers_ s)) < fuel)%nat ->
       drain fuel (BeforeFirst s) = Some (Ok (ys, sf))) /\
    (forall j y, ys !! j = Some y ->
       shard y = (j mod length (prefetchers_ s))%nat /\
       exists p, page_at (source <$> prefetchers_ s) j = Some p /\
                 rows (held y) = rows p) /\
    page_at (source <$> prefetchers_ s) (length ys) = None /\
    (forall n, Next_times n sf = Ok (repeat false n, sf)) /\
    (forall t b t', Next t = Ok (b, t') ->
       clock_ptr_ t' =
         if b then ((clock_ptr_ t + 1) mod length (prefetchers_ t))%nat
         else clock_ptr_ t).
Proof.
  intros Hne.
  destruct (pass_after_BeforeFirst s Hne)
    as (ys & sf & Hd & [Hys Hend] & _ & _ & _ & Hstay & _).
  exists ys, sf. split; [exact Hd |]. split; [| split; [| split]].
  - intros j y Hy. destruct (Hys j y Hy) as (p & Hp & ->). simpl in *.
    rewrite length_fmap. split; [reflexivity |]. now exists p.
  - exact Hend.
  - intros n. now apply Next_times_false.
  - apply Next_clock.
Qed.

Lemma C1_round_robin_pass_witness :
  prefetchers_ three_shards <> [] /\
  exists ys sf,
    (forall fuel, (6 < fuel)%nat ->
       drain fuel (BeforeFirst three_shards) = Some (Ok (ys, sf))) /\
    shard <$> ys = [0; 1; 2; 0; 1; 2]%nat /\
    Next_times 3 sf = Ok ([false; false; false], sf).
Proof.
  split; [discriminate |].
  destruct (C1_round_robin_pass three_shards) as (ys & sf & Hd & _ & _ & Hstay & _);
    [discriminate |].
  exists ys, sf. split; [exact Hd |]. split; [| exact (Hstay 3%nat)].
  specialize (Hd 7%nat ltac:(simpl; lia)). vm_compute in Hd.
  inversion Hd. reflexivity.
Defined.

(** C2. A successful Next stamps the page it yields with the counter and then
    adds the page's row count to the counter (in size_t arithmetic).  In a
    pass over shards whose rows fit in size_t, the j-th page yielded carries
    the sum of the sizes of the pages yielded before it, 0 for the first, and
    the counter ends at the sum of all of them. *)
Theorem C2_base_rowid_running_sum (s : SparsePageSource) :
  prefetchers_ s <> [] ->
  rows_in (concat (source <$> prefetchers_ s)) < 2 ^ 64 ->
  (forall t t', Next t = Ok (true, t') ->
     exists p, Value t' = Ok p /\ base_rowid p = base_rowid_ t /\
               base_rowid_ t' = wrap64 (base_rowid_ t + Size p)) /\
  exists ys sf,
    (forall fuel, (length (concat (source <$> prefetchers_ s)) < fuel)%nat ->
       drain fuel (BeforeFirst s) = Some (Ok (ys, sf))) /\
    (forall j y, ys !! j = Some y ->
       base_rowid (held y) = rows_in (held <$> take j ys)) /\
    base_rowid_ sf = rows_in (held <$> ys).
Proof.
  intros Hne Hfit. split.
  - intros t t' H. unfold Next in H.
    destruct (recycle_page t) as [t1 | e |] eqn:Hrec; simpl in H; try discriminate.
    assert (Hb : base_rowid_ t1 = base_rowid_ t).
    { unfold recycle_page in Hrec.
      destruct (page_ t); [| now inversion Hrec].
      destruct (Nat.eqb _ 0); [discriminate |].
      destruct (prefetchers_ t !! _); inversion Hrec; reflexivity. }
    destruct (prefetchers_ t1 !! clock_ptr_ t1) as [it |]; [| discriminate].
    destruct (iter_Next it) as [[p it'] |]; inversion H; subst t'.
    eexists. unfold Value. simpl. split; [reflexivity |].
    rewrite Hb. split; reflexivity.
  - destruct (pass_after_BeforeFirst s Hne)
      as (ys & sf & Hd & [Hys _] & _ & _ & Hb & _ & Hrows).
    exists ys, sf. split; [exact Hd |]. split.
    + intros j y Hy. destruct (Hys j y Hy) as (p & _ & ->). simpl.
      apply wrap64_small.
      pose proof (rows_in_nonneg (held <$> take j ys)).
      pose proof (rows_in_nonneg (held <$> drop j ys)).
      assert (rows_in (held <$> ys)
              = rows_in (held <$> take j ys) + rows_in (held <$> drop j ys)).
      { rewrite <- rows_in_app, <- fmap_app, take_drop. reflexivity. }
      lia.
    + rewrite Hb. apply wrap64_small.
      pose proof (rows_in_nonneg (held <$> ys)). lia.
Qed.

Lemma C2_base_rowid_running_sum_witness :
  prefetchers_ three_shards <> [] /\
  rows_in (concat (source <$> prefetchers_ three_shards)) < 2 ^ 64 /\
  exists ys sf,
    (forall fuel, (6 < fuel)%nat ->
       drain fuel (BeforeFirst three_shards) = Some (Ok (ys, sf))) /\
    (fun y => base_rowid (held y)) <$> ys = [0; 10; 20; 30; 40; 50] /\
    base_rowid_ sf = rows_in (held <$> ys).
Proof.
  split; [discriminate |]. split; [reflexivity |].
  destruct (C2_base_rowid_running_sum three_shards) as (_ & ys & sf & Hd & _ & Hsf);
    [discriminate | reflexivity |].
  exists ys, sf. split; [exact Hd |]. split; [| exact Hsf].
  specialize (Hd 7%nat ltac:(simpl; lia)). vm_compute in Hd.
  inversion Hd. reflexivity.
Defined.

(** C7. BeforeFirst sets the counter and the clock pointer to 0 and rewinds
    every shard, keeping the files.  Hence the pass after a full drain and a
    BeforeFirst yields the very pages, with the very base_rowid stamps, of
    the pass before it, be that the pass after construction or the pass
    after an earlier BeforeFirst. *)
Theorem C7_second_pass_repeats_first (s : SparsePageSource) :
  prefetchers_ s <> [] ->
  (base_rowid_ (BeforeFirst s) = 0 /\ clock_ptr_ (BeforeFirst s) = 0%nat /\
   Forall (fun it => cursor it = 0%nat) (prefetchers_ (BeforeFirst s)) /\
   source <$> prefetchers_ (BeforeFirst s) = source <$> prefetchers_ s) /\
  exists ys1 s1 ys2 s2,
    (forall fuel, (length (concat (source <$> prefetchers_ s)) < fuel)%nat ->
       drain fuel (BeforeFirst s) = Some (Ok (ys1, s1)) /\
       drain fuel (BeforeFirst s1) = Some (Ok (ys2, s2)) /\
       exists s1', drain fuel (open_source (source <$> prefetchers_ s))
                   = Some (Ok (ys1, s1'))) /\
    ys2 = ys1 /\
    (fun y => base_rowid (held y)) <$> ys2 = (fun y => base_rowid (held y)) <$> ys1.
Proof.
  intros Hne. split.
  - repeat split.
    + unfold BeforeFirst. simpl. apply Forall_fmap, Forall_true. reflexivity.
    + unfold BeforeFirst. simpl. rewrite <- list_fmap_compose. reflexivity.
  - set (files := source <$> prefetchers_ s).
    destruct (pass_after_BeforeFirst s Hne)
      as (ys & s1 & Hd & _ & Hat & _). fold files in Hd, Hat.
    pose proof (at_step_sources _ _ _ Hat) as Hsrc.
    assert (Hk : (0 < length files)%nat).
    { unfold files. rewrite length_fmap.
      destruct (prefetchers_ s); [congruence | simpl; lia]. }
    assert (Hne1 : prefetchers_ s1 <> []).
    { intros Hnil. rewrite Hnil in Hsrc. simpl in Hsrc.
      rewrite <- Hsrc in Hk. simpl in Hk. lia. }
    destruct (pass_after_BeforeFirst s1 Hne1) as (ys2 & s2 & Hd2 & _).
    rewrite Hsrc in Hd2.
    assert (Hcore : forall t, base_rowid_ t = 0 -> clock_ptr_ t = 0%nat ->
              slots t = (fun f => (f, 0%nat)) <$> files ->
              forall fuel, (length (concat files) < fuel)%nat ->
              exists tf, drain fuel t = Some (Ok (ys, tf))).
    { intros t Hb Hc Hsl fuel Hfuel.
      apply (drain_same fuel (BeforeFirst s) t ys s1).
      - now rewrite Hc.
      - now rewrite Hb.
      - now rewrite Hsl, slots_BeforeFirst.
      - rewrite slots_BeforeFirst, length_fmap. exact Hk.
      - now apply Hd. }
    assert (Heq : ys2 = ys).
    { destruct (Hcore (BeforeFirst s1) eq_refl eq_refl) with (fuel := S (length (concat files)))
        as [tf Htf].
      - now rewrite slots_BeforeFirst, Hsrc.
      - lia.
      - rewrite Hd2 in Htf by lia. congruence. }
    exists ys, s1, ys2, s2. split; [| split; [exact Heq | now rewrite Heq]].
    intros fuel Hfuel. split; [now apply Hd |]. split; [now apply Hd2 |].
    destruct (open_source_start files) as (Hb & Hc & _ & Hsl).
    now apply Hcore.
Qed.

Lemma C7_second_pass_repeats_first_witness :
  prefetchers_ uneven_shards <> [] /\
  exists ys1 s1 ys2 s2,
    drain 5 (BeforeFirst uneven_shards) = Some (Ok (ys1, s1)) /\
    drain 5 (BeforeFirst s1) = Some (Ok (ys2, s2)) /\
    ys2 = ys1 /\
    (fun y => base_rowid (held y)) <$> ys1 = [0; 3; 9].
Proof.
  split; [discriminate |].
  destruct (C7_second_pass_repeats_first uneven_shards)
    as (_ & ys1 & s1 & ys2 & s2 & Hd & Heq & _); [discriminate |].
  destruct (Hd 5%nat ltac:(simpl; lia)) as (Hd1 & Hd2 & _).
  exists ys1, s1, ys2, s2. split; [exact Hd1 |]. split; [exact Hd2 |].
  split; [exact Heq |].
  vm_compute in Hd1. inversion Hd1. reflexivity.
Defined.

(** ** The builders *)

Section BuilderFacts.

Context {ops : PageOps}.

Lemma group_row_ok w q : groups_ok w -> groups_ok (group_row w q).
Proof.
  intros [Hnil Hhead]. unfold groups_ok, group_row. simpl.
  destruct (group_ptr_ (info w)) as [| g gs] eqn:Hg.
  - destruct (Hnil eq_refl) as [Hsize Hlast].
    rewrite Hlast, Z.eqb_refl. simpl. split; [discriminate |].
    intros x Hx. inversion Hx. congruence.
  - split.
    + destruct (_ || _); simpl; discriminate.
    + intros x Hx. apply Hhead.
      destruct (_ || _); simpl in Hx; exact Hx.
Qed.

Lemma group_row_nonempty w q :
  groups_ok w -> group_ptr_ (info (group_row w q)) <> [].
Proof.
  intros [Hnil _]. unfold group_row. simpl.
  destruct (group_ptr_ (info w)) as [| g gs] eqn:Hg.
  - destruct (Hnil eq_refl) as [_ Hlast].
    rewrite Hlast, Z.eqb_refl. simpl. discriminate.
  - destruct (_ || _); simpl; discriminate.
Qed.

Lemma group_row_last w q : last_group_id (group_row w q) = q.
Proof. reflexivity. Qed.

Lemma group_rows_ok (f : nat -> Z) l : forall w,
  groups_ok w -> groups_ok (fold_left (fun acc r => group_row acc (f r)) l w).
Proof.
  induction l as [| r l IH]; intros w Hw; simpl; [exact Hw |].
  apply IH, group_row_ok, Hw.
Qed.

Lemma group_rows_keep (f : nat -> Z) l : forall w,
  groups_ok w -> group_ptr_ (info w) <> [] ->
  group_ptr_ (info (fold_left (fun acc r => group_row acc (f r)) l w)) <> [].
Proof.
  induction l as [| r l IH]; intros w Hw Hne; simpl; [exact Hne |].
  apply IH; [apply group_row_ok, Hw | apply group_row_nonempty, Hw].
Qed.

Lemma group_rows_nonempty (f : nat -> Z) l w :
  groups_ok w -> l <> [] ->
  group_ptr_ (info (fold_left (fun acc r => group_row acc (f r)) l w)) <> [].
Proof.
  intros Hw Hl. destruct l as [| r l]; [congruence |]. simpl.
  apply group_rows_keep; [apply group_row_ok, Hw | apply group_row_nonempty, Hw].
Qed.

Lemma group_rows_sentinel (f : nat -> Z) l : forall w,
  groups_ok w ->
  last_group_id (fold_left (fun acc r => group_row acc (f r)) l w) <> uint64_max ->
  group_ptr_ (info (fold_left (fun acc r => group_row acc (f r)) l w)) <> [].
Proof.
  intros w Hw Hlast. destruct l as [| r l].
  - simpl in *. destruct Hw as [Hnil _]. intros Hg.
    destruct (Hnil Hg) as [_ ?]. contradiction.
  - apply group_rows_nonempty; [exact Hw | discriminate].
Qed.

Lemma read_qids_ok b w : groups_ok w -> groups_ok (read_qids b w).
Proof.
  intros Hw. unfold read_qids. destruct (qid b) as [q |]; [| exact Hw].
  apply group_rows_ok. exact Hw.
Qed.

Lemma read_qids_keep b w :
  groups_ok w -> group_ptr_ (info w) <> [] ->
  group_ptr_ (info (read_qids b w)) <> [].
Proof.
  intros Hw Hne. unfold read_qids. destruct (qid b) as [q |]; [| exact Hne].
  apply group_rows_keep; [exact Hw | exact Hne].
Qed.

Lemma read_qids_seen b w q :
  groups_ok w -> qid b = Some q -> (0 < size b)%nat ->
  group_ptr_ (info (read_qids b w)) <> [].
Proof.
  intros Hw Hq Hsize. unfold read_qids. rewrite Hq.
  apply group_rows_nonempty; [exact Hw |].
  destruct (size b); [lia | discriminate].
Qed.

Lemma read_qids_sentinel b w :
  groups_ok w -> last_group_id (read_qids b w) <> uint64_max ->
  group_ptr_ (info (read_qids b w)) <> [].
Proof.
  unfold read_qids. destruct (qid b) as [q |].
  - intros Hw. apply group_rows_sentinel. exact Hw.
  - intros [Hnil _] Hlast Hg. destruct (Hnil Hg) as [_ ?]. contradiction.
Qed.

Lemma read_labels_ok b w : groups_ok w -> groups_ok (read_labels b w).
Proof. intros Hw. exact Hw. Qed.

(** A batch leaves the group bookkeeping as the qid column left it. *)
Lemma row_page_batch_groups w b :
  group_ptr_ (info (row_page_batch w b))
    = group_ptr_ (info (read_qids b (read_labels b w))) /\
  last_group_id (row_page_batch w b) = last_group_id (read_qids b (read_labels b w)) /\
  group_size (row_page_batch w b) = group_size (read_qids b (read_labels b w)).
Proof.
  unfold row_page_batch.
  destruct (flush_if_full _ _ _) as [[p out] bytes]. simpl. auto.
Qed.

Lemma row_page_batch_ok w b : groups_ok w -> groups_ok (row_page_batch w b).
Proof.
  intros Hw.
  pose proof (read_qids_ok b _ (read_labels_ok b w Hw)) as [Hnil Hhead].
  destruct (row_page_batch_groups w b) as (Hg & Hl & Hs).
  unfold groups_ok. rewrite Hg, Hl, Hs. auto.
Qed.

Lemma row_page_start_ok : groups_ok row_page_start.
Proof. split; simpl; [auto | discriminate]. Qed.

Lemma row_page_fold_ok src : forall w,
  groups_ok w -> groups_ok (fold_left row_page_batch src w).
Proof.
  induction src as [| b src IH]; intros w Hw; simpl; [exact Hw |].
  apply IH, row_page_batch_ok, Hw.
Qed.

Lemma row_page_fold_keep src : forall w,
  groups_ok w -> group_ptr_ (info w) <> [] ->
  group_ptr_ (info (fold_left row_page_batch src w)) <> [].
Proof.
  induction src as [| b src IH]; intros w Hw Hne; simpl; [exact Hne |].
  apply IH; [apply row_page_batch_ok, Hw |].
  destruct (row_page_batch_groups w b) as (-> & _).
  apply read_qids_keep; [apply read_labels_ok, Hw | exact Hne].
Qed.

Lemma row_page_fold_seen src : forall w,
  groups_ok w -> (0 < qid_rows src)%nat ->
  group_ptr_ (info (fold_left row_page_batch src w)) <> [].
Proof.
  induction src as [| b src IH]; intros w Hw Hseen; simpl.
  - unfold qid_rows in Hseen. simpl in Hseen. lia.
  - unfold qid_rows in Hseen. simpl in Hseen.
    destruct (qid b) as [q |] eqn:Hq.
    + destruct (size b) as [| n] eqn:Hsize.
      * apply IH; [apply row_page_batch_ok, Hw | exact Hseen].
      * apply row_page_fold_keep; [apply row_page_batch_ok, Hw |].
        destruct (row_page_batch_groups w b) as (-> & _).
        apply (read_qids_seen b _ q); [apply read_labels_ok, Hw | exact Hq | lia].
    + apply IH; [apply row_page_batch_ok, Hw | exact Hseen].
Qed.

Lemma row_page_fold_sentinel src : forall w,
  groups_ok w ->
  last_group_id (fold_left row_page_batch src w) <> uint64_max ->
  group_ptr_ (info (fold_left row_page_batch src w)) <> [].
Proof.
  induction src as [| b src IH] using rev_ind; intros w Hw; simpl.
  - intros Hlast Hg. destruct Hw as [Hnil _].
    destruct (Hnil Hg) as [_ ?]. contradiction.
  - rewrite fold_left_app. simpl.
    destruct (row_page_batch_groups (fold_left row_page_batch src w) b)
      as (-> & -> & _).
    apply read_qids_sentinel, read_labels_ok, row_page_fold_ok, Hw.
Qed.

Lemma resolve_shards_nonempty win cache_info shards :
  CacheSpec.resolve_shards win cache_info = Ok shards -> shards <> [].
Proof.
  unfold CacheSpec.resolve_shards.
  destruct (CacheSpec.GetCacheShards win cache_info) as [l | e |]; simpl;
    try discriminate.
  destruct l as [| x l]; simpl; [discriminate |].
  intros H. inversion H. discriminate.
Qed.

Lemma close_groups_defined src :
  exists i, close_groups (row_page_loop src) = Ok i.
Proof.
  unfold close_groups.
  destruct (Z.eqb_spec (last_group_id (row_page_loop src)) uint64_max) as [He | Hne];
    simpl; [eauto |].
  pose proof (row_page_fold_sentinel src row_page_start row_page_start_ok Hne) as Hg.
  fold (row_page_loop src) in Hg.
  destruct (last (group_ptr_ (info (row_page_loop src)))) as [boundary |] eqn:Hlast.
  - destruct (_ >? _); eauto.
  - apply last_None in Hlast. contradiction.
Qed.

(** Closing the last group touches the group pointers only. *)
Lemma close_groups_counts w i :
  close_groups w = Ok i ->
  qids_ i = qids_ (info w) /\ num_row_ i = num_row_ (info w) /\
  num_col_ i = num_col_ (info w) /\ num_nonzero_ i = num_nonzero_ (info w).
Proof.
  unfold close_groups. destruct (negb _).
  - destruct (last _) as [boundary |]; [| discriminate].
    destruct (_ >? _); intros H; inversion H; subst; simpl; auto.
  - intros H. inversion H; subst. auto.
Qed.





Lemma flush_trailing_written p out :
  flush_trailing p out = out ++ [p] <-> data_Size p <> 0.
Proof.
  unfold flush_trailing. destruct (Z.eqb_spec (data_Size p) 0) as [He | Hne]; simpl.
  - split; [| contradiction]. intros H.
    apply (f_equal length) in H. rewrite length_app in H. simpl in H. lia.
  - split; auto.
Qed.

Lemma flush_trailing_dropped p out :
  flush_trailing p out = out <-> data_Size p = 0.
Proof.
  unfold flush_trailing. destruct (Z.eqb_spec (data_Size p) 0) as [He | Hne]; simpl.
  - split; auto.
  - split; [| contradiction]. intros H.
    apply (f_equal length) in H. rewrite length_app in H. simpl in H. lia.
Qed.

(** CreateRowPage once the shards are resolved and the last group closed. *)
Lemma CreateRowPage_resolved win src cache_info name others i :
  CacheSpec.resolve_shards win cache_info = Ok (name :: others) ->
  close_groups (row_page_loop src) = Ok i ->
  CreateRowPage win src cache_info =
    (do _ok <- CHECK (Nat.eqb (length (qids_ i)) 0
                      || (Z.of_nat (length (qids_ i)) =? num_row_ i))
                 GroupInvariant;
     Ok (mkCache name
           ((fun prefix => String.append prefix ".row.page") <$> (name :: others))
           (flush_trailing (page (row_page_loop src)) (written (row_page_loop src)))
           i)).
Proof.
  intros Hres Hclose. unfold CreateRowPage. rewrite Hres. simpl.
  rewrite Hclose. reflexivity.
Qed.

(** What CreateRowPage hands back when it returns. *)
Lemma CreateRowPage_Ok win src cache_info c :
  CreateRowPage win src cache_info = Ok c ->
  exists i,
    close_groups (row_page_loop src) = Ok i /\
    saved_info c = i /\
    pages c = flush_trailing (page (row_page_loop src)) (written (row_page_loop src)) /\
    (qids_ i = [] \/ Z.of_nat (length (qids_ i)) = num_row_ i).
Proof.
  unfold CreateRowPage.
  destruct (CacheSpec.resolve_shards win cache_info) as [[| name others] | e |];
    simpl; try discriminate.
  destruct (close_groups (row_page_loop src)) as [i | e |]; simpl; try discriminate.
  unfold CHECK.
  destruct (Nat.eqb_spec (length (qids_ i)) 0) as [Hz | Hnz]; simpl.
  - intros H. inversion H; subst c. simpl. exists i.
    repeat split. left. now apply nil_length_inv.
  - destruct (Z.eqb_spec (Z.of_nat (length (qids_ i))) (num_row_ i)) as [He | Hne];
      simpl; [| discriminate].
    intros H. inversion H; subst c. simpl. exists i. repeat split. now right.
Qed.



(** What CreatePageFromDMatrix hands back when it returns. *)
Lemma CreatePageFromDMatrix_Ok win src_info batches cache_info page_type c :
  CreatePageFromDMatrix win src_info batches cache_info page_type = Ok c ->
  exists p out bytes,
    dmatrix_loop page_type (num_col_ src_info) batches (mkPage [] 0, [], 0)
      = Ok (p, out, bytes) /\
    pages c = flush_trailing p out /\ saved_info c = src_info.
Proof.
  unfold CreatePageFromDMatrix.
  destruct (CacheSpec.resolve_shards win cache_info) as [[| name others] | e |];
    simpl; try discriminate.
  destruct (dmatrix_loop _ _ _ _) as [[[p out] bytes] | e |]; simpl; try discriminate.
  intros H. inversion H; subst c. simpl. exists p, out, bytes. auto.
Qed.

Lemma max_over_start a b l : max_over (Z.max a b) l = Z.max b (max_over a l).
Proof. unfold max_over. induction l as [| x l IH]; simpl; lia. Qed.

Lemma fold_max_over (g : nat -> Z) l : forall nc,
  fold_left (fun acc j => Z.max acc (g j)) l nc = max_over nc (g <$> l).
Proof.
  induction l as [| j l IH]; intros nc; simpl; [reflexivity |].
  rewrite IH. apply max_over_start.
Qed.

(** The scan of lines 180-184 keeps the largest [index + 1], the sum taken
    on 32 bits. *)
Lemma scan_columns_max b nc :
  scan_columns b nc = max_over nc ((fun x => wrap32 (x + 1)) <$> block_indices b).
Proof.
  unfold scan_columns, block_indices.
  rewrite (fold_max_over (fun j => wrap32 (at_ (index b) j + 1))).
  now rewrite <- list_fmap_compose.
Qed.

(** Away from the largest 32-bit index the scan keeps [1 + index]. *)
Lemma scan_columns_succ b nc :
  Forall (fun x => 0 <= x < 2 ^ 32 - 1) (block_indices b) ->
  scan_columns b nc = max_over nc ((fun x => x + 1) <$> block_indices b).
Proof.
  intros Hall. rewrite scan_columns_max. f_equal.
  apply Forall_fmap_ext_1. eapply Forall_impl; [exact Hall |].
  intros x Hx. cbv beta in Hx. apply wrap32_small. lia.
Qed.

Lemma scan_columns_no_entry b nc : block_indices b = [] -> scan_columns b nc = nc.
Proof. intros H. rewrite scan_columns_max, H. reflexivity. Qed.

Lemma group_rows_num_col (f : nat -> Z) l : forall w,
  num_col_ (info (fold_left (fun acc r => group_row acc (f r)) l w)) = num_col_ (info w).
Proof.
  induction l as [| r l IH]; intros w; simpl; [reflexivity |].
  now rewrite IH.
Qed.

Lemma row_page_batch_num_col w b :
  num_col_ (info (row_page_batch w b)) = scan_columns b (num_col_ (info w)).
Proof.
  unfold row_page_batch.
  destruct (flush_if_full _ _ _) as [[p out] bytes]. simpl.
  f_equal. unfold read_qids. destruct (qid b) as [q |]; [| reflexivity].
  now rewrite group_rows_num_col.
Qed.

Lemma max_over_app a l1 l2 : max_over (max_over a l1) l2 = max_over a (l1 ++ l2).
Proof.
  induction l1 as [| x l1 IH]; simpl; [reflexivity |].
  change (max_over a (x :: l1)) with (Z.max x (max_over a l1)).
  change (max_over a (x :: l1 ++ l2)) with (Z.max x (max_over a (l1 ++ l2))).
  now rewrite Z.max_comm, max_over_start, IH.
Qed.

(** The column count CreateRowPage arrives at, over all blocks. *)
Lemma row_page_fold_num_col src : forall w,
  num_col_ (info (fold_left row_page_batch src w)) =
  max_over (num_col_ (info w))
    ((fun x => wrap32 (x + 1)) <$> concat (block_indices <$> src)).
Proof.
  induction src as [| b src IH]; intros w; simpl; [reflexivity |].
  rewrite IH, row_page_batch_num_col, scan_columns_max, fmap_app.
  apply max_over_app.
Qed.

(** When the sentinel was overwritten, the last boundary is at least the
    number of rows counted. *)
Lemma close_groups_closed w i :
  close_groups w = Ok i -> last_group_id w <> uint64_max ->
  exists x, last (group_ptr_ i) = Some x /\ group_size w <= x.
Proof.
  unfold close_groups. intros H Hne.
  destruct (Z.eqb_spec (last_group_id w) uint64_max) as [He | _]; [contradiction |].
  simpl in H.
  destruct (last (group_ptr_ (info w))) as [boundary |] eqn:Hlast; [| discriminate].
  destruct (Z.gtb_spec (group_size w) boundary) as [Hgt | Hle];
    inversion H; subst; simpl.
  - exists (group_size w). rewrite last_snoc. split; [reflexivity | lia].
  - exists boundary. split; [exact Hlast | lia].
Qed.

(** The first boundary of the saved group pointers is 0. *)
Lemma close_groups_head w i x :
  groups_ok w -> close_groups w = Ok i -> head (group_ptr_ i) = Some x -> x = 0.
Proof.
  intros [Hnil Hhead] H Hx. unfold close_groups in H.
  destruct (negb _).
  - destruct (last (group_ptr_ (info w))) as [boundary |] eqn:Hlast; [| discriminate].
    destruct (_ >? _); inversion H; subst; simpl in Hx.
    + apply Hhead. destruct (group_ptr_ (info w)); [discriminate Hlast | exact Hx].
    + now apply Hhead.
  - inversion H; subst. now apply Hhead.
Qed.

(** The group pointers CreateRowPage saves begin with 0. *)
Lemma saved_group_ptr_head win src cache_info c x :
  CreateRowPage win src cache_info = Ok c ->
  head (group_ptr_ (saved_info c)) = Some x -> x = 0.
Proof.
  intros Hc. destruct (CreateRowPage_Ok _ _ _ _ Hc) as (i & Hi & -> & _).
  apply (close_groups_head (row_page_loop src)); [| exact Hi].
  apply row_page_fold_ok, row_page_start_ok.
Qed.

(** The design document's streams of query ids. *)
Example group_ptr_example :
  exists c, CreateRowPage false [qid_block [1; 1; 2; 2; 2; 3]] "cache" = Ok c /\
            group_ptr_ (saved_info c) = [0; 2; 5; 6].
Proof.
  unfold CreateRowPage, row_page_loop. simpl. unfold row_page_batch. simpl.
  destruct (flush_if_full _ _ _) as [[p out] bytes]. simpl.
  eexists. split; reflexivity.
Qed.

Example group_ptr_of_three_rows :
  exists c, CreateRowPage false [qid_block [7; 7; 9]] "cache" = Ok c /\
            group_ptr_ (saved_info c) = [0; 2; 3].
Proof.
  unfold CreateRowPage, row_page_loop. simpl. unfold row_page_batch. simpl.
  destruct (flush_if_full _ _ _) as [[p out] bytes]. simpl.
  eexists. split; reflexivity.
Qed.

Lemma stored_rows_flush p out bytes :
  stored_rows (snd (fst (flush_if_full p out bytes))) (fst (fst (flush_if_full p out bytes)))
  = stored_rows out p.
Proof.
  unfold flush_if_full, stored_rows.
  destruct (MemCostBytes p >=? kPageSize); simpl; [| reflexivity].
  rewrite fmap_app, concat_app. simpl. now rewrite !app_nil_r.
Qed.

Lemma stored_rows_Push out p batch :
  stored_rows out (Push p batch) = stored_rows out p ++ batch.
Proof. unfold stored_rows, Push. simpl. now rewrite app_assoc. Qed.

Lemma push_batch_pushed page_type num_col p batch p' :
  push_batch page_type num_col p batch = Ok p' ->
  p' = Push p (pushed_rows page_type num_col batch).
Proof.
  unfold push_batch, pushed_rows.
  destruct (String.eqb page_type ".row.page"); [now inversion 1 |].
  destruct (String.eqb page_type ".col.page"); [now inversion 1 |].
  destruct (String.eqb page_type ".sorted.col.page"); [now inversion 1 | discriminate].
Qed.

Lemma dmatrix_loop_stored page_type num_col batches : forall p0 out0 bytes0 p out bytes,
  dmatrix_loop page_type num_col batches (p0, out0, bytes0) = Ok (p, out, bytes) ->
  stored_rows out p
  = stored_rows out0 p0 ++ concat (pushed_rows page_type num_col <$> batches).
Proof.
  induction batches as [| batch more IH]; intros p0 out0 bytes0 p out bytes H; simpl in H.
  - inversion H; subst. simpl. now rewrite app_nil_r.
  - destruct (push_batch page_type num_col p0 batch) as [p1 | e |] eqn:Hpush;
      simpl in H; try discriminate.
    apply push_batch_pushed in Hpush. subst p1.
    pose proof (stored_rows_flush (Push p0 (pushed_rows page_type num_col batch))
                  out0 bytes0) as Hflush.
    destruct (flush_if_full _ _ _) as [[p1 out1] bytes1]. simpl in Hflush.
    rewrite (IH _ _ _ _ _ _ H), Hflush, stored_rows_Push. simpl.
    now rewrite app_assoc.
Qed.

Lemma no_data_no_entry p : data_Size p = 0 -> concat (rows p) = [].
Proof.
  unfold data_Size. intros H. apply nil_length_inv. lia.
Qed.

(** What the trailing rule keeps of the rows held. *)
Lemma flush_trailing_rows p out :
  exists tail,
    stored_rows out p = concat (rows <$> flush_trailing p out) ++ tail /\
    concat tail = [] /\
    (data_Size p <> 0 -> tail = []).
Proof.
  unfold flush_trailing, stored_rows.
  destruct (Z.eqb_spec (data_Size p) 0) as [He | Hne]; simpl.
  - exists (rows p). split; [reflexivity |]. split; [now apply no_data_no_entry |].
    contradiction.
  - exists []. rewrite fmap_app, concat_app. simpl. now rewrite !app_nil_r.
Qed.

End BuilderFacts.

(** Rows without entries make a page without data: under [sample_ops] the
    six rows below stay in the page in hand, which is then not written. *)
Example rows_without_entries_are_not_written :
  exists c,
    CreateRowPage (ops := sample_ops) false [qid_block [1; 1; 2; 2; 2; 3]] "cache" = Ok c /\
    num_row_ (saved_info c) = 6 /\ pages c = [].
Proof. eexists. split; [vm_compute; reflexivity |]. split; reflexivity. Qed.

(** ** Statements about the builders *)

(** C10. In the streaming row-page builder, as soon as one row with a query
    id has gone through the loop, and in particular whenever the sentinel in
    last_group_id has been overwritten, group_ptr is not empty when the loop
    ends: the first observation always records a boundary.  So the back() of
    the block after the loop is never taken on an empty vector. *)
Theorem C10_group_ptr_back_in_bounds {ops : PageOps} (src : list RowBlock) :
  ((0 < qid_rows src)%nat -> group_ptr_ (info (row_page_loop src)) <> []) /\
  (last_group_id (row_page_loop src) <> uint64_max ->
   group_ptr_ (info (row_page_loop src)) <> []) /\
  exists i, close_groups (row_page_loop src) = Ok i.
Proof.
  split; [| split].
  - apply row_page_fold_seen, row_page_start_ok.
  - apply row_page_fold_sentinel, row_page_start_ok.
  - apply close_groups_defined.
Qed.

Lemma C10_group_ptr_back_in_bounds_witness :
  (0 < qid_rows [qid_block [7; 7; 9]%Z])%nat /\
  group_ptr_ (info (row_page_loop (ops := sample_ops) [qid_block [7; 7; 9]])) <> [].
Proof.
  split; [vm_compute; lia |].
  apply (C10_group_ptr_back_in_bounds (ops := sample_ops) [qid_block [7; 7; 9]]).
  vm_compute. lia.
Defined.

(** C9. After the loop over the input, each of the two builders gives the
    page in hand to the writer exactly when that page holds data, that is
    when [page->data.Size()] is not 0; a page without data is not written. *)
Theorem C9_trailing_page_written_iff_nonempty {ops : PageOps}
  (win : bool) (cache_info : string)
  (src : list RowBlock) (c : Cache)
  (src_info : MetaInfo) (batches : list SparsePage) (page_type : string) (c' : Cache) :
  CreateRowPage win src cache_info = Ok c ->
  CreatePageFromDMatrix win src_info batches cache_info page_type = Ok c' ->
  ((pages c = written (row_page_loop src) ++ [page (row_page_loop src)]
    <-> data_Size (page (row_page_loop src)) <> 0) /\
   (pages c = written (row_page_loop src)
    <-> data_Size (page (row_page_loop src)) = 0)) /\
  exists p out bytes,
    dmatrix_loop page_type (num_col_ src_info) batches (mkPage [] 0, [], 0)
      = Ok (p, out, bytes) /\
    (pages c' = out ++ [p] <-> data_Size p <> 0) /\
    (pages c' = out <-> data_Size p = 0).
Proof.
  intros Hrow Hmat. split.
  - destruct (CreateRowPage_Ok _ _ _ _ Hrow) as (i & _ & _ & -> & _).
    split; [apply flush_trailing_written | apply flush_trailing_dropped].
  - destruct (CreatePageFromDMatrix_Ok _ _ _ _ _ _ Hmat)
      as (p & out & bytes & Hloop & -> & _).
    exists p, out, bytes. split; [exact Hloop |].
    split; [apply flush_trailing_written | apply flush_trailing_dropped].
Qed.

Lemma C9_trailing_page_written_iff_nonempty_witness :
  exists c c',
    CreateRowPage (ops := sample_ops) false [one_row [0; 2]] "a:b" = Ok c /\
    CreatePageFromDMatrix (ops := sample_ops) false empty_info [empty_rows 2]
      "a:b" ".row.page" = Ok c' /\
    (pages c
       = written (row_page_loop (ops := sample_ops) [one_row [0; 2]])
         ++ [page (row_page_loop (ops := sample_ops) [one_row [0; 2]])]
     <-> data_Size (page (row_page_loop (ops := sample_ops) [one_row [0; 2]])) <> 0).
Proof.
  eexists. eexists.
  split; [vm_compute; reflexivity |]. split; [vm_compute; reflexivity |].
  eapply (C9_trailing_page_written_iff_nonempty (ops := sample_ops) false "a:b"
            [one_row [0; 2]] _ empty_info [empty_rows 2] ".row.page" _).
  - vm_compute. reflexivity.
  - vm_compute. reflexivity.
Defined.







(** C3 fails on the code at this input.  A single row whose
    query id is 2^64-1, the value the last-group sentinel starts with: the
    first boundary 0 is recorded and group_size becomes 1, but after the loop
    the sentinel test takes the row for "no qid seen", so group_size is not
    appended although it exceeds the last boundary, and the saved group
    pointers are [0] instead of [0; 1]. *)
Theorem C3_sentinel_qid_leaves_group_open {ops : PageOps} :
  (0 < qid_rows [qid_block [uint64_max]])%nat /\
  group_size (row_page_loop [qid_block [uint64_max]]) = 1 /\
  last (group_ptr_ (info (row_page_loop [qid_block [uint64_max]]))) = Some 0 /\
  exists c,
    CreateRowPage false [qid_block [uint64_max]] "cache" = Ok c /\
    qids_ (saved_info c) = [uint64_max] /\
    num_row_ (saved_info c) = 1 /\
    group_ptr_ (saved_info c) = [0].
Proof.
  assert (Hloop : group_size (row_page_loop [qid_block [uint64_max]]) = 1 /\
                  last_group_id (row_page_loop [qid_block [uint64_max]]) = uint64_max /\
                  info (row_page_loop [qid_block [uint64_max]])
                    = mkInfo 1 0 0 [] [] [uint64_max] [0]).
  { unfold row_page_loop. simpl. unfold row_page_batch. simpl.
    destruct (flush_if_full _ _ _) as [[p out] bytes]. simpl.
    repeat split. }
  destruct Hloop as (Hsize & Hlast & Hinfo).
  split; [unfold qid_rows; simpl; lia |].
  split; [exact Hsize |]. split; [now rewrite Hinfo |].
  unfold CreateRowPage. simpl. unfold close_groups.
  rewrite Hlast, Hinfo. simpl. eexists. split; [reflexivity |]. simpl. auto.
Qed.

(** C5 fails on the code at this input.  On a platform with
    drive letters the cache specification "C:" passes the drive-letter test,
    the text after the prefix is empty, Split yields no piece, and line 29
    assigns to element 0 of an empty vector: there is neither a first prefix
    "C:" nor the fatal error for an empty list.  With a path after the drive
    letter the prefix is kept, and the empty specification is the fatal
    error. *)
Theorem C5_bare_drive_letter_has_no_first_prefix :
  CacheSpec.has_drive_letter "C:" = true /\
  CacheSpec.Split EmptyString ":" = [] /\
  CacheSpec.GetCacheShards true "C:" = Undefined /\
  CacheSpec.resolve_shards true "C:" = Undefined /\
  CacheSpec.resolve_shards true "C:\tmp\x:y" = Ok ["C:\tmp\x"; "y"]%string /\
  CacheSpec.resolve_shards false EmptyString = Abort BadCacheSpec.
Proof. repeat split. Qed.

(** C8 fails on the code at this input.  A single nonzero in
    column 2^32-1: [index + 1] is taken on 32 bits and is 0, so the builder
    saves num_col = 0 where one more than the largest index is 2^32. *)
Theorem C8_largest_index_wraps_to_zero {ops : PageOps} :
  block_indices (one_row [4294967295]) = [4294967295] /\
  1 + max_over 0 (block_indices (one_row [4294967295])) = 4294967296 /\
  exists c,
    CreateRowPage false [one_row [4294967295]] "cache" = Ok c /\
    num_nonzero_ (saved_info c) = 1 /\
    num_col_ (saved_info c) = 0.
Proof.
  split; [reflexivity |]. split; [reflexivity |].
  assert (Hloop : last_group_id (row_page_loop [one_row [4294967295]]) = uint64_max /\
                  info (row_page_loop [one_row [4294967295]])
                    = mkInfo 1 0 1 [] [] [] []).
  { unfold row_page_loop. simpl. unfold row_page_batch. simpl.
    destruct (flush_if_full _ _ _) as [[p out] bytes]. simpl.
    repeat split. }
  destruct Hloop as (Hlast & Hinfo).
  unfold CreateRowPage. simpl. unfold close_groups.
  rewrite Hlast, Hinfo. simpl. eexists. split; [reflexivity |]. simpl. auto.
Qed.

(** * Further properties *)

(** ** The cursor *)

Section MoreReaderFacts.

Local Open Scope nat_scope.

Lemma Next_no_slot s :
  length (prefetchers_ s) <= clock_ptr_ s -> Next s = Undefined.
Proof.
  intros Hge. unfold Next, recycle_page.
  destruct (page_ s) as [held_page |]; simpl.
  - destruct (Nat.eqb (length (prefetchers_ s)) 0); [reflexivity |].
    destruct (prefetchers_ s !! _) as [it0 |]; [| reflexivity]. simpl.
    rewrite (lookup_ge_None_2 (<[_ := _]> (prefetchers_ s)) (clock_ptr_ s));
      [reflexivity | now rewrite length_insert].
  - now rewrite (lookup_ge_None_2 (prefetchers_ s) (clock_ptr_ s)).
Qed.

Lemma slot_under_clock s :
  clock_ptr_ s < length (prefetchers_ s) ->
  exists f c, slots s !! clock_ptr_ s = Some (f, c).
Proof.
  intros Hlt. rewrite <- slots_length in Hlt.
  destruct (lookup_lt_is_Some_2 _ _ Hlt) as [[f c] H]. eauto.
Qed.

Lemma sources_of_slots s : source <$> prefetchers_ s = fst <$> slots s.
Proof. unfold slots. rewrite <- list_fmap_compose. reflexivity. Qed.

Lemma back_one_shard k c : c < k -> ((c + 1) mod k + k - 1) mod k = c.
Proof.
  intros Hc. destruct (decide (c + 1 < k)) as [Hlt | Hge].
  - rewrite (Nat.mod_small (c + 1) k) by lia.
    replace (c + 1 + k - 1) with (c + 1 * k) by lia.
    rewrite Nat.Div0.mod_add. apply Nat.mod_small. lia.
  - replace (c + 1) with k by lia. rewrite Nat.Div0.mod_same.
    replace (0 + k - 1) with c by lia. apply Nat.mod_small. lia.
Qed.

(** The cells a call of Next hands back: one, to the shard before the clock
    pointer, when a page is held, none otherwise. *)
Lemma Next_recycled s b s' j r :
  Next s = Ok (b, s') ->
  recycled_cells s !! j = Some r ->
  recycled_cells s' !! j =
    Some (match page_ s with
          | Some _ =>
              if decide (j = (clock_ptr_ s + length (prefetchers_ s) - 1)
                               mod length (prefetchers_ s))
              then S r else r
          | None => r
          end).
Proof.
  unfold Next, recycle_page, recycled_cells. intros H Hj.
  assert (Hkeep : forall (l : list ThreadedIter) i it it',
            l !! i = Some it -> recycled it' = recycled it ->
            recycled <$> <[i := it']> l = recycled <$> l).
  { intros l i it it' Hl Hr. rewrite list_fmap_insert, Hr.
    apply list_insert_id. now rewrite list_lookup_fmap, Hl. }
  destruct (page_ s) as [held_page |]; simpl in H.
  - destruct (Nat.eqb (length (prefetchers_ s)) 0); [discriminate |].
    set (i := (clock_ptr_ s + length (prefetchers_ s) - 1) mod length (prefetchers_ s)) in *.
    destruct (prefetchers_ s !! i) as [it0 |] eqn:Hit0; [| discriminate].
    simpl in H.
    destruct (<[i := iter_Recycle it0]> (prefetchers_ s) !! clock_ptr_ s)
      as [it |] eqn:Hit; [| discriminate].
    assert (Hcells : forall l, recycled <$> l = recycled <$> <[i := iter_Recycle it0]> (prefetchers_ s) ->
              (recycled <$> l) !! j = Some (if decide (j = i) then S r else r)).
    { intros l ->. rewrite list_fmap_insert. simpl.
      destruct (decide (j = i)) as [-> | Hne].
      - rewrite list_lookup_insert_eq.
        + rewrite list_lookup_fmap, Hit0 in Hj. simpl in Hj. congruence.
        + rewrite length_fmap. eapply lookup_lt_Some; eassumption.
      - rewrite list_lookup_insert_ne by congruence. exact Hj. }
    unfold iter_Next in H.
    destruct (source it !! cursor it) as [p |]; inversion H; subst; simpl.
    + apply Hcells. now apply (Hkeep _ _ it).
    + now apply Hcells.
  - destruct (prefetchers_ s !! clock_ptr_ s) as [it |] eqn:Hit; [| discriminate].
    unfold iter_Next in H.
    destruct (source it !! cursor it) as [p |]; inversion H; subst; simpl.
    + rewrite (Hkeep _ _ it); [exact Hj | exact Hit | reflexivity].
    + exact Hj.
Qed.

Lemma Next_true_holds s s' :
  Next s = Ok (true, s') ->
  exists p, page_ s' = Some p /\
            clock_ptr_ s' = (clock_ptr_ s + 1) mod length (prefetchers_ s) /\
            length (prefetchers_ s') = length (prefetchers_ s) /\
            clock_ptr_ s < length (prefetchers_ s).
Proof.
  intros H. pose proof (Next_clock _ _ _ H) as Hc. simpl in Hc.
  destruct (decide (clock_ptr_ s < length (prefetchers_ s))) as [Hlt | Hge].
  - destruct (slot_under_clock s Hlt) as (f & c & Hslot).
    pose proof (Next_spec s f c Hslot) as Hspec.
    destruct (f !! c) as [p |].
    + destruct Hspec as (t & Ht & _ & Hp & _ & Hsl).
      rewrite Ht in H. inversion H; subst t. exists (set_base_rowid (base_rowid_ s) p).
      repeat split; try assumption.
      rewrite <- !slots_length, Hsl. apply length_insert.
    + destruct Hspec as (t & Ht & _). rewrite Ht in H. discriminate.
  - rewrite Next_no_slot in H by lia. discriminate.
Qed.

End MoreReaderFacts.

(** X1. Next has a defined result exactly when the clock pointer is below
    the number of shards; in particular it has none on a reader without
    shards. *)
Theorem Next_defined_iff_clock_in_range (s : SparsePageSource) :
  (exists b s', Next s = Ok (b, s')) <->
  (clock_ptr_ s < length (prefetchers_ s))%nat.
Proof.
  split.
  - intros (b & s' & H).
    destruct (decide (clock_ptr_ s < length (prefetchers_ s))%nat) as [Hlt | Hge];
      [exact Hlt |].
    rewrite Next_no_slot in H by lia. discriminate.
  - intros Hlt. destruct (slot_under_clock s Hlt) as (f & c & Hslot).
    pose proof (Next_spec s f c Hslot) as Hspec.
    destruct (f !! c) as [p |]; destruct Hspec as (s' & H & _); eauto.
Qed.

(** X2. A call of Next on a reader whose clock pointer is in range keeps it
    in range, keeps the number of shards, and leaves the pages of every
    shard file as they are. *)
Theorem Next_keeps_shards (s : SparsePageSource) (b : bool) (s' : SparsePageSource) :
  (clock_ptr_ s < length (prefetchers_ s))%nat ->
  Next s = Ok (b, s') ->
  (clock_ptr_ s' < length (prefetchers_ s'))%nat /\
  length (prefetchers_ s') = length (prefetchers_ s) /\
  source <$> prefetchers_ s' = source <$> prefetchers_ s.
Proof.
  intros Hlt H. destruct (slot_under_clock s Hlt) as (f & c & Hslot).
  pose proof (Next_spec s f c Hslot) as Hspec.
  destruct (f !! c) as [p |].
  - destruct Hspec as (t & Ht & _ & _ & Hc & Hsl).
    rewrite Ht in H. inversion H; subst b t.
    assert (Hlen : length (prefetchers_ s') = length (prefetchers_ s))
      by (rewrite <- !slots_length, Hsl; apply length_insert).
    split; [| split; [exact Hlen |]].
    + rewrite Hc, Hlen, slots_length. apply Nat.mod_upper_bound. lia.
    + rewrite !sources_of_slots, Hsl, list_fmap_insert. simpl.
      apply list_insert_id. now rewrite list_lookup_fmap, Hslot.
  - destruct Hspec as (t & Ht & _ & _ & Hc & Hsl & _).
    rewrite Ht in H. inversion H; subst b t.
    assert (Hlen : length (prefetchers_ s') = length (prefetchers_ s))
      by (rewrite <- !slots_length, Hsl; reflexivity).
    split; [| split; [exact Hlen |]].
    + now rewrite Hc, Hlen.
    + now rewrite !sources_of_slots, Hsl.
Qed.

Lemma Next_keeps_shards_witness :
  (clock_ptr_ mid_pass < length (prefetchers_ mid_pass))%nat /\
  exists b s', Next mid_pass = Ok (b, s') /\
    source <$> prefetchers_ s' = source <$> prefetchers_ mid_pass.
Proof.
  split; [simpl; lia |].
  eexists. eexists. split; [vm_compute; reflexivity |].
  eapply (Next_keeps_shards mid_pass).
  - simpl. lia.
  - vm_compute. reflexivity.
Defined.

(** X3. The page behind Value: a Next that answers true leaves a page held,
    a Next that answers false leaves none, so that Value has nothing to
    refer to, and BeforeFirst does not touch the page held. *)
Theorem held_page_lifecycle :
  (forall s s', Next s = Ok (true, s') -> exists p, Value s' = Ok p) /\
  (forall s s', Next s = Ok (false, s') -> Value s' = Undefined) /\
  (forall s, Value (BeforeFirst s) = Value s).
Proof.
  split; [| split].
  - intros s s' H. destruct (Next_true_holds _ _ H) as (p & Hp & _).
    exists p. unfold Value. now rewrite Hp.
  - intros s s' H.
    destruct (decide (clock_ptr_ s < length (prefetchers_ s))%nat) as [Hlt | Hge].
    + destruct (slot_under_clock s Hlt) as (f & c & Hslot).
      pose proof (Next_spec s f c Hslot) as Hspec.
      destruct (f !! c) as [p |].
      * destruct Hspec as (t & Ht & _). rewrite Ht in H. discriminate.
      * destruct Hspec as (t & Ht & _ & Hp & _). rewrite Ht in H.
        inversion H; subst t. unfold Value. now rewrite Hp.
    + rewrite Next_no_slot in H by lia. discriminate.
  - reflexivity.
Qed.

(** X4. Previous-shard recycling: the call of Next that follows a
    successful one hands the page back to the very shard that served it,
    and to no other. *)
Theorem held_page_returns_to_its_shard
  (s0 s1 s2 : SparsePageSource) (b : bool) (j r : nat) :
  Next s0 = Ok (true, s1) ->
  Next s1 = Ok (b, s2) ->
  recycled_cells s1 !! j = Some r ->
  recycled_cells s2 !! j = Some (if decide (j = clock_ptr_ s0) then S r else r).
Proof.
  intros H0 H1 Hj.
  destruct (Next_true_holds _ _ H0) as (p & Hp & Hc & Hlen & Hlt).
  rewrite (Next_recycled _ _ _ _ _ H1 Hj), Hp, Hc, Hlen.
  now rewrite back_one_shard.
Qed.

Lemma held_page_returns_to_its_shard_witness :
  exists s1 s2,
    Next (BeforeFirst uneven_shards) = Ok (true, s1) /\
    Next s1 = Ok (true, s2) /\
    recycled_cells s1 = [0; 0]%nat /\
    recycled_cells s2 !! 0%nat = Some 1%nat /\
    recycled_cells s2 !! 1%nat = Some 0%nat.
Proof.
  eexists. eexists.
  split; [vm_compute; reflexivity |]. split; [vm_compute; reflexivity |].
  split; [reflexivity |]. split.
  - eapply (held_page_returns_to_its_shard (BeforeFirst uneven_shards) _ _ true 0 0).
    + vm_compute. reflexivity.
    + vm_compute. reflexivity.
    + reflexivity.
  - reflexivity.
Defined.

(** X5. BeforeFirst keeps the page held, and the first Next after it hands
    that page to the last shard, whichever shard had served it. *)
Theorem rewind_recycles_into_last_shard
  (s : SparsePageSource) (p : SparsePage) (b : bool) (s' : SparsePageSource)
  (j r : nat) :
  page_ s = Some p ->
  Next (BeforeFirst s) = Ok (b, s') ->
  recycled_cells s !! j = Some r ->
  recycled_cells s' !! j =
    Some (if decide (j = length (prefetchers_ s) - 1)%nat then S r else r).
Proof.
  intros Hp H Hj.
  assert (Hcells : recycled_cells (BeforeFirst s) = recycled_cells s).
  { unfold recycled_cells, BeforeFirst. simpl.
    rewrite <- list_fmap_compose. reflexivity. }
  rewrite <- Hcells in Hj.
  rewrite (Next_recycled _ _ _ _ _ H Hj). simpl. rewrite Hp, length_fmap.
  assert (Hk : (0 < length (prefetchers_ s))%nat).
  { rewrite Hcells in Hj. unfold recycled_cells in Hj.
    apply lookup_lt_Some in Hj. rewrite length_fmap in Hj. lia. }
  rewrite (Nat.mod_small (0 + length (prefetchers_ s) - 1)) by lia.
  reflexivity.
Qed.

Lemma rewind_recycles_into_last_shard_witness :
  page_ mid_pass = Some (mkPage (repeat [] 3) 0) /\
  exists b s',
    Next (BeforeFirst mid_pass) = Ok (b, s') /\
    recycled_cells mid_pass = [0; 0]%nat /\
    recycled_cells s' !! 1%nat = Some 1%nat.
Proof.
  split; [reflexivity |].
  eexists. eexists. split; [vm_compute; reflexivity |]. split; [reflexivity |].
  eapply (rewind_recycles_into_last_shard mid_pass _ _ _ 1 0).
  - reflexivity.
  - vm_compute. reflexivity.
  - reflexivity.
Defined.

Section PassShape.

Local Open Scope nat_scope.

Lemma div_mod_of_turn k n i : i < k -> (k * n + i) / k = n /\ (k * n + i) mod k = i.
Proof.
  intros Hi.
  pose proof (Nat.div_mod_eq (k * n + i) k) as Heq.
  pose proof (Nat.mod_upper_bound (k * n + i) k ltac:(lia)) as Hr.
  apply (Nat.div_mod_unique k); lia.
Qed.

Lemma page_at_turn (files : list (list SparsePage)) i f n :
  files !! i = Some f ->
  page_at files (length files * n + i) = f !! n.
Proof.
  intros Hf.
  assert (Hi : i < length files) by (eapply lookup_lt_Some; eassumption).
  destruct (div_mod_of_turn (length files) n i Hi) as [Hq Hm].
  unfold page_at. now rewrite Hm, Hf, Hq.
Qed.

(** The length of an interleaving read from the start: no shard allows more,
    and the shard whose turn comes next allows no less. *)
Lemma interleaved_length (files : list (list SparsePage)) base ys :
  0 < length files ->
  interleaved files 0 base ys ->
  (forall i f, files !! i = Some f -> length ys <= length files * length f + i) /\
  (exists c f, files !! c = Some f /\ length ys = length files * length f + c).
Proof.
  intros Hk [Hys Hend]. simpl in Hys, Hend.
  assert (Hsome : forall m, m < length ys -> exists p, page_at files m = Some p).
  { intros m Hm. destruct (lookup_lt_is_Some_2 _ _ Hm) as [y Hy].
    destruct (Hys m y Hy) as (p & Hp & _). eauto. }
  split.
  - intros i f Hf.
    destruct (decide (length ys <= length files * length f + i)) as [Hle | Hgt];
      [exact Hle |].
    destruct (Hsome (length files * length f + i) ltac:(lia)) as [p Hp].
    rewrite (page_at_turn files i f _ Hf) in Hp.
    apply lookup_lt_Some in Hp. lia.
  - set (N := length ys) in *.
    assert (Hc : N mod length files < length files)
      by (apply Nat.mod_upper_bound; lia).
    destruct (lookup_lt_is_Some_2 _ _ Hc) as [f Hf].
    exists (N mod length files), f. split; [exact Hf |].
    pose proof (Nat.div_mod_eq N (length files)) as HN.
    assert (Hup : length f <= N / length files).
    { unfold page_at in Hend. rewrite Hf in Hend.
      now apply lookup_ge_None_1 in Hend. }
    assert (Hlow : N / length files <= length f).
    { destruct (N / length files) as [| q] eqn:Hq; [lia |].
      destruct (Hsome (length files * q + N mod length files) ltac:(lia)) as [p Hp].
      rewrite (page_at_turn files _ f _ Hf) in Hp.
      apply lookup_lt_Some in Hp. lia. }
    assert (length f = N / length files) by lia. lia.
Qed.

Lemma length_concat_same {A} (ls : list (list A)) n :
  Forall (fun l => length l = n) ls -> length (concat ls) = length ls * n.
Proof.
  induction 1 as [| l ls Hl _ IH]; simpl; [reflexivity |].
  rewrite length_app, IH, Hl. lia.
Qed.

End PassShape.

(** X6. How long a pass is.  Over k >= 1 shards of which shard i holds
    len_i pages, the pass that follows BeforeFirst yields exactly the least
    of the numbers k * len_i + i: no shard admits more, and the bound of one
    shard is met. *)
Theorem pass_length_is_least_turn (s : SparsePageSource) :
  prefetchers_ s <> [] ->
  exists ys sf,
    (forall fuel, (length (concat (source <$> prefetchers_ s)) < fuel)%nat ->
       drain fuel (BeforeFirst s) = Some (Ok (ys, sf))) /\
    (forall i it, prefetchers_ s !! i = Some it ->
       (length ys <= length (prefetchers_ s) * length (source it) + i)%nat) /\
    (exists c it, prefetchers_ s !! c = Some it /\
       length ys = (length (prefetchers_ s) * length (source it) + c)%nat).
Proof.
  intros Hne.
  destruct (pass_after_BeforeFirst s Hne) as (ys & sf & Hd & Hint & _).
  assert (Hk : (0 < length (source <$> prefetchers_ s))%nat).
  { rewrite length_fmap. destruct (prefetchers_ s); [congruence | simpl; lia]. }
  destruct (interleaved_length _ _ _ Hk Hint) as [Hup (c & f & Hf & Hlen)].
  rewrite length_fmap in Hup, Hlen.
  exists ys, sf. split; [exact Hd |]. split.
  - intros i it Hit. apply (Hup i (source it)).
    now rewrite list_lookup_fmap, Hit.
  - rewrite list_lookup_fmap in Hf.
    destruct (prefetchers_ s !! c) as [it |] eqn:Hit; [| discriminate].
    simpl in Hf. inversion Hf; subst f. eauto.
Qed.

Lemma pass_length_is_least_turn_witness :
  prefetchers_ uneven_shards <> [] /\
  exists ys sf,
    drain 5 (BeforeFirst uneven_shards) = Some (Ok (ys, sf)) /\
    (length ys <= 2 * 3 + 0)%nat /\ (length ys <= 2 * 1 + 1)%nat /\
    length ys = 3%nat.
Proof.
  split; [discriminate |].
  destruct (pass_length_is_least_turn uneven_shards) as (ys & sf & Hd & Hup & _);
    [discriminate |].
  exists ys, sf. split; [apply Hd; simpl; lia |].
  split; [exact (Hup 0%nat _ eq_refl) |]. split; [exact (Hup 1%nat _ eq_refl) |].
  specialize (Hd 5%nat ltac:(simpl; lia)). vm_compute in Hd. inversion Hd.
  reflexivity.
Defined.

(** X7. Reading back what was dealt round-robin.  When the shard files hold
    a sequence of pages so that its j-th page is page [j / k] of shard
    [j mod k] and the position after the last page is empty, the pass that
    follows BeforeFirst yields exactly that sequence, in its order. *)
Theorem dealt_pages_come_back_in_order
  (s : SparsePageSource) (dealt : list SparsePage) :
  prefetchers_ s <> [] ->
  (forall j, (j < length dealt)%nat ->
     page_at (source <$> prefetchers_ s) j = dealt !! j) ->
  page_at (source <$> prefetchers_ s) (length dealt) = None ->
  exists ys sf,
    (forall fuel, (length (concat (source <$> prefetchers_ s)) < fuel)%nat ->
       drain fuel (BeforeFirst s) = Some (Ok (ys, sf))) /\
    unstamped ys = rows <$> dealt.
Proof.
  intros Hne Hdealt Hstop.
  destruct (pass_after_BeforeFirst s Hne) as (ys & sf & Hd & [Hys Hend] & _).
  simpl in Hys, Hend.
  exists ys, sf. split; [exact Hd |].
  assert (Hlen : length ys = length dealt).
  { destruct (Nat.lt_trichotomy (length ys) (length dealt)) as [Hlt | [Heq | Hgt]];
      [| exact Heq |].
    - rewrite (Hdealt _ Hlt) in Hend.
      apply lookup_ge_None_1 in Hend. lia.
    - destruct (lookup_lt_is_Some_2 ys (length dealt) Hgt) as [y Hy].
      destruct (Hys _ _ Hy) as (p & Hp & _). congruence. }
  unfold unstamped. apply list_eq. intros m.
  rewrite !list_lookup_fmap.
  destruct (ys !! m) as [y |] eqn:Hy; simpl.
  - destruct (Hys _ _ Hy) as (p & Hp & ->). simpl.
    rewrite Hdealt in Hp by (apply lookup_lt_Some in Hy; lia).
    now rewrite Hp.
  - apply lookup_ge_None_1 in Hy.
    rewrite (lookup_ge_None_2 dealt m) by lia. reflexivity.
Qed.

Lemma dealt_pages_come_back_in_order_witness :
  exists ys sf,
    drain 6 (BeforeFirst uneven_shards) = Some (Ok (ys, sf)) /\
    unstamped ys = rows <$> [empty_rows 3; empty_rows 6; empty_rows 4].
Proof.
  destruct (dealt_pages_come_back_in_order uneven_shards
              [empty_rows 3; empty_rows 6; empty_rows 4])
    as (ys & sf & Hd & Hrows).
  - discriminate.
  - intros j Hj. simpl in Hj.
    destruct j as [| [| [| j]]]; [reflexivity | reflexivity | reflexivity | lia].
  - reflexivity.
  - exists ys, sf. split; [apply Hd; simpl; lia | exact Hrows].
Defined.

(** X8. Balanced shards lose nothing: when every shard holds the same
    number n of pages, the pass that follows BeforeFirst yields k * n pages,
    as many as the files hold. *)
Theorem balanced_shards_yield_every_page (s : SparsePageSource) (n : nat) :
  prefetchers_ s <> [] ->
  Forall (fun it => length (source it) = n) (prefetchers_ s) ->
  exists ys sf,
    (forall fuel, (length (concat (source <$> prefetchers_ s)) < fuel)%nat ->
       drain fuel (BeforeFirst s) = Some (Ok (ys, sf))) /\
    length ys = (length (prefetchers_ s) * n)%nat /\
    length ys = length (concat (source <$> prefetchers_ s)).
Proof.
  intros Hne Hall.
  destruct (pass_after_BeforeFirst s Hne) as (ys & sf & Hd & Hint & _).
  assert (Hk : (0 < length (source <$> prefetchers_ s))%nat).
  { rewrite length_fmap. destruct (prefetchers_ s); [congruence | simpl; lia]. }
  destruct (interleaved_length _ _ _ Hk Hint) as [Hup (c & f & Hf & Hlen)].
  assert (Hfiles : Forall (fun l : list SparsePage => length l = n)
                     (source <$> prefetchers_ s)).
  { apply Forall_fmap. exact Hall. }
  assert (Hn : forall i g, (source <$> prefetchers_ s) !! i = Some g -> length g = n).
  { intros i g Hg. rewrite Forall_lookup in Hfiles. exact (Hfiles i g Hg). }
  destruct (lookup_lt_is_Some_2 _ 0%nat Hk) as [f0 Hf0].
  pose proof (Hup 0%nat f0 Hf0) as H0.
  rewrite (Hn _ _ Hf0) in H0. rewrite (Hn _ _ Hf) in Hlen.
  rewrite length_fmap in H0, Hlen.
  assert (Hys : length ys = (length (prefetchers_ s) * n)%nat) by lia.
  exists ys, sf. split; [exact Hd |]. split; [exact Hys |].
  rewrite (length_concat_same _ n Hfiles), length_fmap. exact Hys.
Qed.

Lemma balanced_shards_yield_every_page_witness :
  prefetchers_ three_shards <> [] /\
  Forall (fun it => length (source it) = 2%nat) (prefetchers_ three_shards) /\
  exists ys sf,
    drain 7 (BeforeFirst three_shards) = Some (Ok (ys, sf)) /\ length ys = 6%nat.
Proof.
  split; [discriminate |].
  assert (Hall : Forall (fun it => length (source it) = 2%nat) (prefetchers_ three_shards))
    by (repeat constructor).
  split; [exact Hall |].
  destruct (balanced_shards_yield_every_page three_shards 2) as (ys & sf & Hd & Hlen & _);
    [discriminate | exact Hall |].
  exists ys, sf. split; [apply Hd; simpl; lia | exact Hlen].
Defined.

(** ** The existence check and the file names *)

Section NamesFacts.

Lemma shards_exist_Forall can_open page_type cache_shards :
  shards_exist can_open page_type cache_shards = true <->
  Forall (fun prefix => can_open (String.append prefix page_type) = true) cache_shards.
Proof.
  induction cache_shards as [| prefix more IH]; simpl.
  - split; [constructor | reflexivity].
  - destruct (can_open (String.append prefix page_type)) eqn:Hopen.
    + rewrite IH. split; [now constructor | now inversion 1].
    + split; [discriminate |]. inversion 1; congruence.
Qed.

Lemma resolve_shards_first win cache_info shards :
  CacheSpec.resolve_shards win cache_info = Ok shards ->
  exists first others, shards = first :: others.
Proof.
  intros H. pose proof (resolve_shards_nonempty _ _ _ H).
  destruct shards as [| first others]; [congruence | eauto].
Qed.

End NamesFacts.

(** X9. CacheExist does not stop on a missing file: once the shards are
    resolved it answers, and it answers true exactly when the metadata file
    named by the first prefix and the page file of every prefix can be
    opened. *)
Theorem CacheExist_true_iff_all_files_open
  (win : bool) (can_open : string -> bool) (cache_info page_type : string)
  (shards : list string) :
  CacheSpec.resolve_shards win cache_info = Ok shards ->
  exists b,
    CacheExist win can_open cache_info page_type = Ok b /\
    (b = true <->
     (exists first, head shards = Some first /\ can_open first = true) /\
     Forall (fun prefix => can_open (String.append prefix page_type) = true) shards).
Proof.
  intros Hres. destruct (resolve_shards_first _ _ _ Hres) as (first & others & ->).
  unfold CacheExist. rewrite Hres. simpl bind. cbv iota.
  destruct (can_open first) eqn:Hfirst.
  - eexists. split; [reflexivity |].
    rewrite <- (shards_exist_Forall can_open page_type (first :: others)).
    simpl. split.
    + intros H. split; [exists first; auto | exact H].
    + intros [_ H]. exact H.
  - exists false. split; [reflexivity |]. split; [discriminate |].
    intros [(f & Hf & Hopen) _]. simpl in Hf. inversion Hf; subst f. congruence.
Qed.

Lemma CacheExist_true_iff_all_files_open_witness :
  CacheSpec.resolve_shards false "a:b" = Ok ["a"; "b"]%string /\
  CacheExist false row_cache_files "a:b" ".row.page" = Ok true /\
  CacheExist false row_cache_files "a:b" ".col.page" = Ok false.
Proof.
  split; [reflexivity |].
  destruct (CacheExist_true_iff_all_files_open false row_cache_files "a:b" ".row.page"
              ["a"; "b"]%string eq_refl) as (b & Hb & Hiff).
  split; [| reflexivity].
  rewrite Hb. f_equal. apply Hiff. split.
  - exists "a"%string. split; reflexivity.
  - repeat constructor.
Defined.

(** On a cache specification without shards CacheExist stops with the fatal
    check instead of answering false. *)
Lemma CacheExist_aborts_without_shards
  (win : bool) (can_open : string -> bool) (cache_info page_type : string) :
  CacheSpec.GetCacheShards win cache_info = Ok [] ->
  CacheExist win can_open cache_info page_type = Abort BadCacheSpec.
Proof.
  intros H. unfold CacheExist, CacheSpec.resolve_shards. now rewrite H.
Qed.

Section BuilderNames.

Context {ops : PageOps}.

Lemma CreatePageFromDMatrix_names win src_info batches cache_info page_type c :
  CreatePageFromDMatrix win src_info batches cache_info page_type = Ok c ->
  exists first others,
    CacheSpec.resolve_shards win cache_info = Ok (first :: others) /\
    name_info c = first /\
    name_shards c
      = (fun prefix => String.append prefix page_type) <$> (first :: others).
Proof.
  unfold CreatePageFromDMatrix.
  destruct (CacheSpec.resolve_shards win cache_info) as [[| first others] | e |];
    simpl; try discriminate.
  destruct (dmatrix_loop _ _ _ _) as [[[p out] bytes] | e |]; simpl; try discriminate.
  intros H. inversion H; subst c. simpl. eauto.
Qed.

Lemma CreateRowPage_names win src cache_info c :
  CreateRowPage win src cache_info = Ok c ->
  exists first others,
    CacheSpec.resolve_shards win cache_info = Ok (first :: others) /\
    name_info c = first /\
    name_shards c
      = (fun prefix => String.append prefix ".row.page") <$> (first :: others).
Proof.
  unfold CreateRowPage.
  destruct (CacheSpec.resolve_shards win cache_info) as [[| first others] | e |];
    simpl; try discriminate.
  destruct (close_groups (row_page_loop src)) as [i | e |]; simpl; try discriminate.
  destruct (CHECK _ _) as [u | e |]; simpl; try discriminate.
  intros H. inversion H; subst c. simpl. eauto.
Qed.

Lemma CacheExist_of_names win can_open cache_info page_type first others :
  CacheSpec.resolve_shards win cache_info = Ok (first :: others) ->
  CacheExist win can_open cache_info page_type
  = Ok (can_open first
        && forallb can_open
             ((fun prefix => String.append prefix page_type) <$> (first :: others))).
Proof.
  intros Hres. unfold CacheExist. rewrite Hres. simpl bind. cbv iota.
  assert (Hall : forall l,
            shards_exist can_open page_type l
            = forallb can_open ((fun prefix => String.append prefix page_type) <$> l)).
  { induction l as [| x l IH]; simpl; [reflexivity |].
    destruct (can_open (String.append x page_type)); simpl; [exact IH | reflexivity]. }
  destruct (can_open first); [now rewrite Hall | reflexivity].
Qed.

End BuilderNames.

(** X10. The builders and the existence check agree on the file names: after
    either builder has returned for a cache specification, CacheExist for that
    specification and page type answers, and its answer is true exactly when
    the metadata file and every page file the builder named can be opened. *)
Theorem CacheExist_looks_for_what_builders_write {ops : PageOps}
  (win : bool) (can_open : string -> bool) (cache_info page_type : string)
  (src : list RowBlock) (c : Cache)
  (src_info : MetaInfo) (batches : list SparsePage) (c' : Cache) :
  CreateRowPage win src cache_info = Ok c ->
  CreatePageFromDMatrix win src_info batches cache_info page_type = Ok c' ->
  CacheExist win can_open cache_info ".row.page"
    = Ok (can_open (name_info c) && forallb can_open (name_shards c)) /\
  CacheExist win can_open cache_info page_type
    = Ok (can_open (name_info c') && forallb can_open (name_shards c')).
Proof.
  intros Hrow Hmat.
  destruct (CreateRowPage_names _ _ _ _ Hrow) as (f & o & Hres & -> & ->).
  destruct (CreatePageFromDMatrix_names _ _ _ _ _ _ Hmat) as (f' & o' & Hres' & -> & ->).
  split; now apply CacheExist_of_names.
Qed.

Lemma CacheExist_looks_for_what_builders_write_witness :
  exists c c',
    CreateRowPage (ops := sample_ops) false [block_one] "a:b" = Ok c /\
    CreatePageFromDMatrix (ops := sample_ops) false empty_info [empty_rows 2]
      "a:b" ".col.page" = Ok c' /\
    CacheExist false row_cache_files "a:b" ".row.page"
      = Ok (row_cache_files (name_info c) && forallb row_cache_files (name_shards c)) /\
    CacheExist false row_cache_files "a:b" ".col.page"
      = Ok (row_cache_files (name_info c') && forallb row_cache_files (name_shards c')).
Proof.
  eexists. eexists.
  split; [vm_compute; reflexivity |]. split; [vm_compute; reflexivity |].
  eapply (CacheExist_looks_for_what_builders_write (ops := sample_ops) false
            row_cache_files "a:b" ".col.page" [block_one] _ empty_info [empty_rows 2] _).
  - vm_compute. reflexivity.
  - vm_compute. reflexivity.
Defined.

(** ** The constructor *)

Section ConstructionFacts.

Context {disk : Storage}.

Lemma read_info_Ok name_info i :
  read_info name_info = Ok i <->
  exists f, open_read name_info = Some f /\ Read_tmagic f = 4 /\ LoadBinary f = Ok i.
Proof.
  unfold read_info, Stream_Create, sizeof_tmagic.
  destruct (open_read name_info) as [f |]; simpl.
  - unfold CHECK. destruct (Z.eqb_spec (Read_tmagic f) 4) as [He | Hne]; simpl.
    + split; [intros H; eauto |]. intros (f' & Hf & _ & Hl). now inversion Hf; subst.
    + split; [discriminate |]. intros (f' & Hf & Hm & _). inversion Hf; subst. contradiction.
  - split; [discriminate |]. intros (f' & Hf & _). discriminate.
Qed.

Lemma open_shard_Ok page_type prefix pages :
  open_shard page_type prefix = Ok pages <->
  shard_pages (String.append prefix page_type) = Some pages.
Proof.
  unfold open_shard, shard_pages, Stream_Create, SparsePageFormat_Create.
  destruct (open_read (String.append prefix page_type)) as [f |]; simpl;
    [| split; discriminate].
  destruct (Read_format f) as [format |]; [| split; discriminate].
  destruct (registry format) as [fmt |]; simpl; [| split; discriminate].
  split; inversion 1; reflexivity.
Qed.

Lemma open_shards_Ok page_type cache_shards : forall files,
  open_shards page_type cache_shards = Ok files <->
  Forall2 (fun prefix pages => shard_pages (String.append prefix page_type) = Some pages)
    cache_shards files.
Proof.
  induction cache_shards as [| prefix more IH]; intros files; simpl.
  - split.
    + inversion 1. constructor.
    + inversion 1. reflexivity.
  - pose proof (open_shard_Ok page_type prefix) as Hone.
    destruct (open_shard page_type prefix) as [pages | e |]; simpl.
    + destruct (open_shards page_type more) as [others | e |]; simpl.
      * split.
        -- inversion 1; subst. constructor; [now apply Hone | now apply IH].
        -- inversion 1 as [| ? pages' ? others' Hp Hrest]; subst.
           apply Hone in Hp. inversion Hp; subst.
           apply IH in Hrest. inversion Hrest; subst. reflexivity.
      * split; [discriminate |].
        inversion 1 as [| ? pages' ? others' Hp Hrest]; subst.
        apply IH in Hrest. discriminate.
      * split; [discriminate |].
        inversion 1 as [| ? pages' ? others' Hp Hrest]; subst.
        apply IH in Hrest. discriminate.
    + split; [discriminate |].
      inversion 1 as [| ? pages' ? others' Hp Hrest]; subst.
      apply Hone in Hp. discriminate.
    + split; [discriminate |].
      inversion 1 as [| ? pages' ? others' Hp Hrest]; subst.
      apply Hone in Hp. discriminate.
Qed.

(** The shards open exactly when every one of them does. *)
Lemma open_shards_readable page_type cache_shards :
  (exists files, open_shards page_type cache_shards = Ok files) <->
  Forall (fun prefix => is_Some (shard_pages (String.append prefix page_type)))
    cache_shards.
Proof.
  split.
  - intros (files & H). apply open_shards_Ok in H.
    induction H as [| prefix pages more others Hp _ IH]; constructor; [eauto | exact IH].
  - induction 1 as [| prefix more [pages Hp] _ (others & IH)].
    + exists []. reflexivity.
    + exists (pages :: others). apply open_shards_Ok. constructor; [exact Hp |].
      now apply open_shards_Ok.
Qed.

(** The constructor once the shards are resolved. *)
Lemma SparsePageSource_new_resolved win cache_info page_type name_info others :
  CacheSpec.resolve_shards win cache_info = Ok (name_info :: others) ->
  SparsePageSource_new win cache_info page_type
  = do i <- read_info name_info;
    do files <- open_shards page_type (name_info :: others);
    Ok (mkConstructed i (open_source files)).
Proof. intros H. unfold SparsePageSource_new. rewrite H. reflexivity. Qed.

(** The prefetchers set up on the pages of the shards. *)
Lemma open_source_shards page_type cache_shards files :
  Forall2 (fun prefix pages => shard_pages (String.append prefix page_type) = Some pages)
    cache_shards files ->
  Forall2 (fun prefix it =>
             shard_pages (String.append prefix page_type) = Some (source it) /\
             cursor it = 0%nat /\ recycled it = 0%nat)
    cache_shards (prefetchers_ (open_source files)).
Proof.
  unfold open_source. simpl.
  induction 1 as [| prefix pages more others Hp _ IH]; simpl; constructor; auto.
Qed.

End ConstructionFacts.

(** X11. With the shards resolved, the constructor returns exactly when the
    metadata file behind the first prefix opens, gives the four bytes of its
    magic and loads, and every shard file (prefix plus page type) opens,
    names its format and that format is registered; a metadata file that
    does not open stops it.  When it returns, its MetaInfo is the one loaded
    from the first prefix, there is one prefetcher per prefix, in the order
    of the cache specification, each at the start of the pages of its file;
    the reader is at the start of a pass, so that BeforeFirst changes
    nothing on it, and it holds no page yet. *)
Theorem constructed_reader_is_rewound {disk : Storage}
  (win : bool) (cache_info page_type : string) (shards : list string) :
  CacheSpec.resolve_shards win cache_info = Ok shards ->
  ((exists r, SparsePageSource_new win cache_info page_type = Ok r) <->
   (exists name_info, head shards = Some name_info /\ meta_readable name_info) /\
   Forall (fun prefix => is_Some (shard_pages (String.append prefix page_type))) shards) /\
  (forall name_info, head shards = Some name_info -> open_read name_info = None ->
     SparsePageSource_new win cache_info page_type = Abort IoError) /\
  (forall r, SparsePageSource_new win cache_info page_type = Ok r ->
     (exists name_info f,
        head shards = Some name_info /\ open_read name_info = Some f /\
        LoadBinary f = Ok (loaded_info r)) /\
     Forall2 (fun prefix it =>
                shard_pages (String.append prefix page_type) = Some (source it) /\
                cursor it = 0%nat /\ recycled it = 0%nat)
       shards (prefetchers_ (reader r)) /\
     prefetchers_ (reader r) <> [] /\
     base_rowid_ (reader r) = 0 /\
     clock_ptr_ (reader r) = 0%nat /\
     BeforeFirst (reader r) = reader r /\
     Value (reader r) = Undefined).
Proof.
  intros Hres.
  pose proof (resolve_shards_nonempty _ _ _ Hres) as Hne.
  destruct shards as [| name_info others]; [congruence |].
  rewrite (SparsePageSource_new_resolved _ _ _ _ _ Hres). cbn [head].
  pose proof (read_info_Ok name_info) as Hinfo.
  pose proof (open_shards_readable page_type (name_info :: others)) as Hall.
  pose proof (open_shards_Ok page_type (name_info :: others)) as Hfiles.
  split; [| split].
  - destruct (read_info name_info) as [i | e |];
      [destruct (open_shards page_type (name_info :: others)) as [files | e |] | |];
      cbn [bind].
    + split; [| eauto]. intros _. split.
      * exists name_info. split; [reflexivity |].
        destruct (proj1 (Hinfo i) eq_refl) as (f & Hf & Hm & Hl).
        exists f, i. auto.
      * apply Hall. eauto.
    + split; [intros (r & Hr); discriminate |].
      intros (_ & Hsh). apply Hall in Hsh. destruct Hsh as (files & Hsh). discriminate.
    + split; [intros (r & Hr); discriminate |].
      intros (_ & Hsh). apply Hall in Hsh. destruct Hsh as (files & Hsh). discriminate.
    + split; [intros (r & Hr); discriminate |].
      intros ((n & Hn & f & i & Hf & Hm & Hl) & _). inversion Hn; subst n.
      assert (Abort e = Ok i) as Habs by (apply Hinfo; eauto). discriminate.
    + split; [intros (r & Hr); discriminate |].
      intros ((n & Hn & f & i & Hf & Hm & Hl) & _). inversion Hn; subst n.
      assert (Undefined = Ok i) as Habs by (apply Hinfo; eauto). discriminate.
  - intros n Hn Hopen. inversion Hn; subst n.
    unfold read_info, Stream_Create. rewrite Hopen. reflexivity.
  - intros r Hr.
    destruct (read_info name_info) as [i | e |]; cbn [bind] in Hr; try discriminate.
    destruct (open_shards page_type (name_info :: others)) as [files | e |];
      cbn [bind] in Hr; try discriminate.
    inversion Hr; subst r. cbn [loaded_info reader].
    destruct (proj1 (Hinfo i) eq_refl) as (f & Hf & Hm & Hl).
    pose proof (proj1 (Hfiles files) eq_refl) as Hsh.
    split; [exists name_info, f; auto |].
    split; [now apply open_source_shards |].
    split.
    { inversion Hsh; subst. simpl. discriminate. }
    split; [reflexivity |]. split; [reflexivity |].
    split; [apply BeforeFirst_open_source | reflexivity].
Qed.

Lemma constructed_reader_is_rewound_witness :
  CacheSpec.resolve_shards false "a:b" = Ok ["a"; "b"]%string /\
  exists r,
    SparsePageSource_new (disk := cache_disk) false "a:b" ".row.page" = Ok r /\
    loaded_info r = partial_qids_info /\
    source <$> prefetchers_ (reader r)
      = [[empty_rows 3; empty_rows 4]; [empty_rows 6]] /\
    BeforeFirst (reader r) = reader r.
Proof.
  split; [reflexivity |].
  eexists. split; [vm_compute; reflexivity |].
  split; [reflexivity |]. split; [reflexivity |].
  lazymatch goal with
  | |- BeforeFirst (reader ?r) = _ =>
      destruct (constructed_reader_is_rewound (disk := cache_disk) false "a:b"
                  ".row.page" ["a"; "b"]%string eq_refl) as (_ & _ & H);
        destruct (H r) as (_ & _ & _ & _ & _ & Hb & _);
        [vm_compute; reflexivity | exact Hb]
  end.
Defined.

(** ** The builders: rows, pages and counters *)

Section MoreBuilderFacts.

Context {ops : PageOps}.

Lemma group_rows_pages l : forall w,
  page (fold_left group_row l w) = page w /\
  written (fold_left group_row l w) = written w /\
  bytes_write (fold_left group_row l w) = bytes_write w.
Proof.
  induction l as [| q l IH]; intros w; simpl; [auto |].
  destruct (IH (group_row w q)) as (-> & -> & ->). auto.
Qed.

Lemma fold_group_row_fmap (f : nat -> Z) l : forall w,
  fold_left (fun acc r => group_row acc (f r)) l w = fold_left group_row (f <$> l) w.
Proof. induction l as [| r l IH]; intros w; simpl; [reflexivity | apply IH]. Qed.

Lemma read_qids_pages b w :
  page (read_qids b w) = page w /\ written (read_qids b w) = written w /\
  bytes_write (read_qids b w) = bytes_write w.
Proof.
  unfold read_qids. destruct (qid b) as [q |]; [| auto].
  rewrite fold_group_row_fmap.
  destruct (group_rows_pages (at_ q <$> seq 0 (size b))
              (mkWork
                 (mkInfo (num_row_ (info w)) (num_col_ (info w)) (num_nonzero_ (info w))
                    (labels_ (info w)) (weights_ (info w))
                    (qids_ (info w) ++ take (size b) q) (group_ptr_ (info w)))
                 (page w) (written w) (bytes_write w) (last_group_id w) (group_size w)))
    as (-> & -> & ->).
  auto.
Qed.

Lemma row_page_batch_stored w b :
  stored_rows (written (row_page_batch w b)) (page (row_page_batch w b))
  = stored_rows (written w) (page w) ++ block_rows b.
Proof.
  unfold row_page_batch.
  destruct (read_qids_pages b (read_labels b w)) as (Hp & Hw & Hb).
  simpl in Hp, Hw, Hb. rewrite Hp, Hw, Hb.
  pose proof (stored_rows_flush (Push (page w) (block_rows b)) (written w) (bytes_write w))
    as Hflush.
  destruct (flush_if_full _ _ _) as [[p out] bytes]. simpl in *.
  now rewrite Hflush, stored_rows_Push.
Qed.

(** Flushing neither loses nor reorders rows. *)
Lemma row_page_fold_stored src : forall w,
  stored_rows (written (fold_left row_page_batch src w))
    (page (fold_left row_page_batch src w))
  = stored_rows (written w) (page w) ++ source_rows src.
Proof.
  induction src as [| b src IH]; intros w; simpl.
  - unfold source_rows. simpl. now rewrite app_nil_r.
  - rewrite IH, row_page_batch_stored. unfold source_rows. simpl.
    now rewrite app_assoc.
Qed.

End MoreBuilderFacts.

(** X12. The streaming builder keeps the rows of its input: the rows of the
    pages of the cache are, in order, the rows of the blocks, short at most
    of a tail of rows without entries (the page in hand at the end, when it
    holds no data); so every nonzero of the input is in the cache. *)
Theorem row_cache_keeps_every_entry {ops : PageOps}
  (win : bool) (src : list RowBlock) (cache_info : string) (c : Cache) :
  CreateRowPage win src cache_info = Ok c ->
  exists tail,
    source_rows src = cache_rows c ++ tail /\
    concat tail = [] /\
    (data_Size (page (row_page_loop src)) <> 0 -> tail = []) /\
    concat (cache_rows c) = concat (source_rows src).
Proof.
  intros Hc. destruct (CreateRowPage_Ok _ _ _ _ Hc) as (i & _ & _ & Hpages & _).
  pose proof (row_page_fold_stored src row_page_start) as Hrows.
  fold (row_page_loop src) in Hrows. simpl in Hrows.
  destruct (flush_trailing_rows (page (row_page_loop src)) (written (row_page_loop src)))
    as (tail & Hsplit & Hnil & Hfull).
  exists tail. unfold cache_rows. rewrite Hpages, <- Hsplit, Hrows.
  split; [reflexivity |]. split; [exact Hnil |]. split; [exact Hfull |].
  rewrite <- Hrows, Hsplit, concat_app, Hnil. now rewrite app_nil_r.
Qed.

Lemma row_cache_keeps_every_entry_witness :
  exists c,
    CreateRowPage (ops := sample_ops) false [block_one; block_two] "a:b" = Ok c /\
    concat (cache_rows c) = concat (source_rows [block_one; block_two]).
Proof.
  eexists. split; [vm_compute; reflexivity |].
  lazymatch goal with
  | |- concat (cache_rows ?c) = _ =>
      destruct (row_cache_keeps_every_entry (ops := sample_ops) false
                  [block_one; block_two] "a:b" c) as (tail & _ & _ & _ & H);
        [vm_compute; reflexivity | exact H]
  end.
Defined.

(** X13. The builder from a materialized matrix keeps the rows it pushes:
    the rows of the pages of the cache are, in order, the rows of the batches
    (as they are, transposed, or transposed and sorted, by page type), short
    at most of a tail of rows without entries. *)
Theorem matrix_cache_keeps_every_entry {ops : PageOps}
  (win : bool) (src_info : MetaInfo) (batches : list SparsePage)
  (cache_info page_type : string) (c : Cache) :
  CreatePageFromDMatrix win src_info batches cache_info page_type = Ok c ->
  exists tail,
    concat (pushed_rows page_type (num_col_ src_info) <$> batches)
      = cache_rows c ++ tail /\
    concat tail = [].
Proof.
  intros Hc.
  destruct (CreatePageFromDMatrix_Ok _ _ _ _ _ _ Hc) as (p & out & bytes & Hloop & Hpages & _).
  apply dmatrix_loop_stored in Hloop. simpl in Hloop.
  destruct (flush_trailing_rows p out) as (tail & Hsplit & Hnil & _).
  exists tail. unfold cache_rows. rewrite Hpages, <- Hsplit, <- Hloop.
  split; [reflexivity | exact Hnil].
Qed.

Lemma matrix_cache_keeps_every_entry_witness :
  exists c,
    CreatePageFromDMatrix (ops := sample_ops) false empty_info
      [mkPage [[mkEntry 0 one_f]; [mkEntry 1 one_f]] 0; empty_rows 1] "a:b" ".row.page"
    = Ok c /\
    exists tail,
      concat (pushed_rows (ops := sample_ops) ".row.page" (num_col_ empty_info)
                <$> [mkPage [[mkEntry 0 one_f]; [mkEntry 1 one_f]] 0; empty_rows 1])
        = cache_rows c ++ tail /\
      concat tail = [].
Proof.
  eexists. split; [vm_compute; reflexivity |].
  eapply (matrix_cache_keeps_every_entry (ops := sample_ops) false empty_info
            [mkPage [[mkEntry 0 one_f]; [mkEntry 1 one_f]] 0; empty_rows 1] "a:b"
            ".row.page").
  vm_compute. reflexivity.
Defined.

Section BudgetFacts.

Context {ops : PageOps}.

Lemma flush_if_full_budget p out bytes :
  Forall (fun q => kPageSize <= MemCostBytes q) out ->
  Forall (fun q => kPageSize <= MemCostBytes q) (snd (fst (flush_if_full p out bytes))) /\
  (length (snd (fst (flush_if_full p out bytes))) <= S (length out))%nat.
Proof.
  intros Hout. unfold flush_if_full.
  destruct (Z.geb_spec (MemCostBytes p) kPageSize) as [Hge | Hlt]; simpl.
  - split; [| rewrite length_app; simpl; lia].
    apply Forall_app. split; [exact Hout |]. constructor; [lia | constructor].
  - split; [exact Hout | lia].
Qed.

Lemma row_page_fold_budget src : forall w,
  Forall (fun q => kPageSize <= MemCostBytes q) (written w) ->
  Forall (fun q => kPageSize <= MemCostBytes q)
    (written (fold_left row_page_batch src w)) /\
  (length (written (fold_left row_page_batch src w))
   <= length (written w) + length src)%nat.
Proof.
  induction src as [| b src IH]; intros w Hw; simpl; [split; [exact Hw | lia] |].
  assert (Hstep : Forall (fun q => kPageSize <= MemCostBytes q)
                    (written (row_page_batch w b)) /\
                  (length (written (row_page_batch w b)) <= S (length (written w)))%nat).
  { unfold row_page_batch.
    destruct (read_qids_pages b (read_labels b w)) as (Hp & Hwr & Hb).
    simpl in Hp, Hwr, Hb. rewrite Hp, Hwr, Hb.
    pose proof (flush_if_full_budget (Push (page w) (block_rows b)) (written w)
                  (bytes_write w) Hw) as Hflush.
    destruct (flush_if_full _ _ _) as [[p out] bytes]. exact Hflush. }
  destruct Hstep as [Hall Hlen].
  destruct (IH _ Hall) as [Hall' Hlen']. split; [exact Hall' | lia].
Qed.

Lemma dmatrix_loop_budget page_type num_col batches : forall p0 out0 bytes0 p out bytes,
  dmatrix_loop page_type num_col batches (p0, out0, bytes0) = Ok (p, out, bytes) ->
  Forall (fun q => kPageSize <= MemCostBytes q) out0 ->
  Forall (fun q => kPageSize <= MemCostBytes q) out /\
  (length out <= length out0 + length batches)%nat.
Proof.
  induction batches as [| batch more IH]; intros p0 out0 bytes0 p out bytes H Hout;
    simpl in H.
  - inversion H; subst. split; [exact Hout | lia].
  - destruct (push_batch page_type num_col p0 batch) as [p1 | e |]; simpl in H;
      try discriminate.
    pose proof (flush_if_full_budget p1 out0 bytes0 Hout) as [Hall Hlen].
    destruct (flush_if_full p1 out0 bytes0) as [[p2 out2] bytes2]. simpl in *.
    destruct (IH _ _ _ _ _ _ H Hall) as [Hall' Hlen'].
    split; [exact Hall' | lia].
Qed.

(** The pages before the last one of what the trailing rule leaves are
    pages that were flushed. *)
Lemma flush_trailing_before_last p out i q :
  flush_trailing p out !! i = Some q ->
  (S i < length (flush_trailing p out))%nat ->
  out !! i = Some q.
Proof.
  unfold flush_trailing. destruct (negb _); [| auto].
  rewrite length_app. simpl. intros Hq Hi.
  rewrite lookup_app_l in Hq by lia. exact Hq.
Qed.

Lemma flush_trailing_length p out :
  (length (flush_trailing p out) <= S (length out))%nat.
Proof.
  unfold flush_trailing. destruct (negb _); [rewrite length_app; simpl |]; lia.
Qed.

End BudgetFacts.

(** X14. Page budget.  In the cache of either builder every page but the
    last one has a memory cost of at least kPageSize, and there are at most
    as many pages as input blocks (or batches) plus one. *)
Theorem every_page_but_last_reached_budget {ops : PageOps}
  (win : bool) (cache_info page_type : string)
  (src : list RowBlock) (c : Cache)
  (src_info : MetaInfo) (batches : list SparsePage) (c' : Cache) :
  CreateRowPage win src cache_info = Ok c ->
  CreatePageFromDMatrix win src_info batches cache_info page_type = Ok c' ->
  ((forall i q, pages c !! i = Some q -> (S i < length (pages c))%nat ->
      kPageSize <= MemCostBytes q) /\
   (length (pages c) <= S (length src))%nat) /\
  ((forall i q, pages c' !! i = Some q -> (S i < length (pages c'))%nat ->
      kPageSize <= MemCostBytes q) /\
   (length (pages c') <= S (length batches))%nat).
Proof.
  intros Hrow Hmat. split.
  - destruct (CreateRowPage_Ok _ _ _ _ Hrow) as (i0 & _ & _ & Hpages & _).
    destruct (row_page_fold_budget src row_page_start) as [Hall Hlen];
      [constructor |].
    fold (row_page_loop src) in Hall, Hlen. simpl in Hlen.
    rewrite Hpages. split.
    + intros i q Hq Hi.
      apply (Forall_lookup_1 _ _ i q Hall).
      eapply flush_trailing_before_last; eassumption.
    + pose proof (flush_trailing_length (page (row_page_loop src))
                    (written (row_page_loop src))). lia.
  - destruct (CreatePageFromDMatrix_Ok _ _ _ _ _ _ Hmat)
      as (p & out & bytes & Hloop & Hpages & _).
    destruct (dmatrix_loop_budget _ _ _ _ _ _ _ _ _ Hloop) as [Hall Hlen];
      [constructor |].
    simpl in Hlen. rewrite Hpages. split.
    + intros i q Hq Hi.
      apply (Forall_lookup_1 _ _ i q Hall).
      eapply flush_trailing_before_last; eassumption.
    + pose proof (flush_trailing_length p out). lia.
Qed.

Lemma every_page_but_last_reached_budget_witness :
  exists c c',
    CreateRowPage (ops := sample_ops) false [block_one; block_two; block_one] "a:b" = Ok c /\
    CreatePageFromDMatrix (ops := sample_ops) false empty_info [empty_rows 2]
      "a:b" ".row.page" = Ok c' /\
    length (pages c) = 2%nat /\
    (forall i q, pages c !! i = Some q -> (S i < length (pages c))%nat ->
       kPageSize (PageOps := sample_ops) <= MemCostBytes (PageOps := sample_ops) q).
Proof.
  eexists. eexists.
  split; [vm_compute; reflexivity |]. split; [vm_compute; reflexivity |].
  split; [reflexivity |].
  lazymatch goal with
  | |- forall i q, pages ?c !! i = Some q -> _ =>
      destruct (every_page_but_last_reached_budget (ops := sample_ops) false "a:b"
                  ".row.page" [block_one; block_two; block_one] c empty_info
                  [empty_rows 2]
                  (mkCache "a" ["a.row.page"; "b.row.page"]%string [] empty_info))
        as [[H _] _];
        [vm_compute; reflexivity | vm_compute; reflexivity | exact H]
  end.
Defined.



(** ** The builders: query groups *)

Section GroupBoundsFacts.

Context {ops : PageOps}.

Lemma run_starts_app prev n l1 : forall l2,
  run_starts prev n (l1 ++ l2)
  = run_starts prev n l1
    ++ run_starts (match last l1 with Some q => Some q | None => prev end)
         (n + Z.of_nat (length l1)) l2.
Proof.
  revert prev n. induction l1 as [| q l1 IH]; intros prev n l2; simpl.
  - now rewrite Z.add_0_r.
  - rewrite IH, <- app_assoc. f_equal. f_equal.
    rewrite last_cons.
    replace (n + Z.of_nat (S (length l1))) with (n + 1 + Z.of_nat (length l1)) by lia.
    now destruct (last l1).
Qed.

Lemma run_starts_range prev n qs :
  Forall (fun x => n <= x < n + Z.of_nat (length qs)) (run_starts prev n qs).
Proof.
  revert prev n. induction qs as [| q qs IH]; intros prev n; simpl; [constructor |].
  apply Forall_app. split.
  - destruct (decide (prev = Some q)); [constructor |].
    constructor; [lia | constructor].
  - eapply Forall_impl; [apply IH |]. intros x Hx. simpl in Hx. lia.
Qed.

Lemma prev_of_sentinel w : prev_of w = None <-> last_group_id w = uint64_max.
Proof.
  unfold prev_of. destruct (Z.eqb_spec (last_group_id w) uint64_max); split;
    congruence.
Qed.

(** One row with an id other than the sentinel, while the row counter fits
    in 32 bits. *)
Lemma group_row_bounds w q :
  q <> uint64_max -> 0 <= group_size w < 2 ^ 32 - 1 ->
  group_ptr_ (info (group_row w q))
    = group_ptr_ (info w) ++ run_starts (prev_of w) (group_size w) [q] /\
  group_size (group_row w q) = group_size w + 1 /\
  prev_of (group_row w q) = Some q.
Proof.
  intros Hq Hsize. unfold group_row, prev_of. simpl.
  split; [| split].
  - destruct (Z.eqb_spec (last_group_id w) uint64_max) as [He | Hne]; simpl.
    + destruct (decide (None = Some q)); [discriminate | reflexivity].
    + destruct (Z.eqb_spec (last_group_id w) q) as [-> | Hd]; simpl.
      * destruct (decide (Some q = Some q)); [now rewrite app_nil_r | congruence].
      * destruct (decide (Some (last_group_id w) = Some q)); [congruence | reflexivity].
  - apply wrap32_small. lia.
  - destruct (Z.eqb_spec q uint64_max); [contradiction | reflexivity].
Qed.

Lemma group_rows_bounds qs : forall w,
  Forall (fun q => q <> uint64_max) qs ->
  0 <= group_size w -> group_size w + Z.of_nat (length qs) < 2 ^ 32 ->
  group_ptr_ (info (fold_left group_row qs w))
    = group_ptr_ (info w) ++ run_starts (prev_of w) (group_size w) qs /\
  group_size (fold_left group_row qs w) = group_size w + Z.of_nat (length qs) /\
  prev_of (fold_left group_row qs w)
    = match last qs with Some q => Some q | None => prev_of w end.
Proof.
  induction qs as [| q qs IH]; intros w Hall H0 Hfit; simpl.
  - rewrite app_nil_r, Z.add_0_r. auto.
  - inversion Hall as [| ? ? Hq Hrest]; subst. simpl length in Hfit.
    destruct (group_row_bounds w q Hq ltac:(lia)) as (Hg & Hs & Hp).
    destruct (IH (group_row w q) Hrest ltac:(lia) ltac:(lia)) as (Hg' & Hs' & Hp').
    simpl run_starts in Hg. rewrite app_nil_r in Hg.
    rewrite Hg', Hs', Hp', Hg, Hs, Hp. simpl. rewrite <- app_assoc.
    split; [reflexivity |]. split; [lia |].
    rewrite last_cons. now destruct (last qs).
Qed.

Lemma read_qids_bounds b w :
  Forall (fun q => q <> uint64_max) (seen_qids [b]) ->
  0 <= group_size w -> group_size w + Z.of_nat (length (seen_qids [b])) < 2 ^ 32 ->
  group_ptr_ (info (read_qids b w))
    = group_ptr_ (info w) ++ run_starts (prev_of w) (group_size w) (seen_qids [b]) /\
  group_size (read_qids b w) = group_size w + Z.of_nat (length (seen_qids [b])) /\
  prev_of (read_qids b w)
    = match last (seen_qids [b]) with Some q => Some q | None => prev_of w end.
Proof.
  unfold seen_qids, read_qids. simpl. rewrite app_nil_r.
  destruct (qid b) as [q |]; simpl.
  - intros Hall H0 Hfit. rewrite fold_group_row_fmap.
    apply (group_rows_bounds (at_ q <$> seq 0 (size b))
             (mkWork
                (mkInfo (num_row_ (info w)) (num_col_ (info w)) (num_nonzero_ (info w))
                   (labels_ (info w)) (weights_ (info w))
                   (qids_ (info w) ++ take (size b) q) (group_ptr_ (info w)))
                (page w) (written w) (bytes_write w) (last_group_id w) (group_size w)));
      assumption.
  - intros _ _ _. rewrite app_nil_r, Z.add_0_r. auto.
Qed.

Lemma seen_qids_cons b src : seen_qids (b :: src) = seen_qids [b] ++ seen_qids src.
Proof. unfold seen_qids. simpl. now rewrite app_nil_r. Qed.

Lemma row_page_fold_bounds src : forall w,
  Forall (fun q => q <> uint64_max) (seen_qids src) ->
  0 <= group_size w -> group_size w + Z.of_nat (length (seen_qids src)) < 2 ^ 32 ->
  group_ptr_ (info (fold_left row_page_batch src w))
    = group_ptr_ (info w) ++ run_starts (prev_of w) (group_size w) (seen_qids src) /\
  group_size (fold_left row_page_batch src w)
    = group_size w + Z.of_nat (length (seen_qids src)) /\
  prev_of (fold_left row_page_batch src w)
    = match last (seen_qids src) with Some q => Some q | None => prev_of w end.
Proof.
  induction src as [| b src IH]; intros w Hall H0 Hfit.
  - simpl. rewrite app_nil_r, Z.add_0_r. auto.
  - rewrite seen_qids_cons in Hall, Hfit |- *.
    apply Forall_app in Hall. destruct Hall as [Hb Hsrc].
    rewrite length_app, Nat2Z.inj_add in Hfit.
    destruct (read_qids_bounds b (read_labels b w) Hb H0 ltac:(simpl; lia))
      as (Hg & Hs & Hp).
    destruct (row_page_batch_groups w b) as (Hg1 & Hl1 & Hs1).
    assert (Hp1 : prev_of (row_page_batch w b) = prev_of (read_qids b (read_labels b w)))
      by (unfold prev_of; now rewrite Hl1).
    simpl fold_left.
    destruct (IH (row_page_batch w b)) as (Hg' & Hs' & Hp').
    + exact Hsrc.
    + rewrite Hs1, Hs. simpl. lia.
    + rewrite Hs1, Hs. simpl. lia.
    + rewrite Hg', Hs', Hp', Hg1, Hs1, Hp1, Hg, Hs, Hp. simpl group_size.
      simpl group_ptr_. change (prev_of (read_labels b w)) with (prev_of w).
      rewrite run_starts_app, length_app, Nat2Z.inj_add, last_app, <- app_assoc.
      split; [reflexivity |]. split; [lia |].
      now destruct (last (seen_qids src)).
Qed.

End GroupBoundsFacts.

(** X16. Group pointers of the streaming builder.  When no query id read is
    2^64-1 and fewer than 2^32 rows carry one, the group pointers saved are
    the boundaries of the runs of equal consecutive ids in the order read:
    the start of every run, then the number of rows with an id; and there
    are none when no row carries an id. *)
Theorem group_ptr_marks_runs_of_equal_qids {ops : PageOps}
  (win : bool) (src : list RowBlock) (cache_info : string) (c : Cache) :
  CreateRowPage win src cache_info = Ok c ->
  Forall (fun q => q <> uint64_max) (seen_qids src) ->
  Z.of_nat (length (seen_qids src)) < 2 ^ 32 ->
  group_ptr_ (saved_info c) = group_bounds (seen_qids src).
Proof.
  intros Hc Hall Hfit.
  destruct (CreateRowPage_Ok _ _ _ _ Hc) as (i & Hclose & -> & _).
  destruct (row_page_fold_bounds src row_page_start Hall) as (Hg & Hs & Hp);
    [simpl; lia | simpl; lia |].
  fold (row_page_loop src) in Hg, Hs, Hp.
  change (prev_of row_page_start) with (@None Z) in Hg, Hp.
  change (group_size row_page_start) with 0 in Hg, Hs.
  change (group_ptr_ (info row_page_start)) with (@nil Z) in Hg.
  rewrite app_nil_l in Hg. rewrite Z.add_0_l in Hs.
  pose proof (run_starts_range None 0 (seen_qids src)) as Hrange.
  rewrite <- Hg in Hrange.
  unfold close_groups in Hclose. unfold group_bounds.
  destruct (seen_qids src) as [| q0 qs] eqn:Hseen.
  - simpl in Hp. apply prev_of_sentinel in Hp. rewrite Hp, Z.eqb_refl in Hclose.
    simpl in Hclose. inversion Hclose; subst i. exact Hg.
  - assert (Hlast : last_group_id (row_page_loop src) <> uint64_max).
    { intros He. apply prev_of_sentinel in He. rewrite He in Hp.
      rewrite last_cons in Hp. destruct (last qs); discriminate. }
    destruct (Z.eqb_spec (last_group_id (row_page_loop src)) uint64_max)
      as [He | _]; [contradiction |].
    simpl negb in Hclose. cbv iota in Hclose.
    destruct (last (group_ptr_ (info (row_page_loop src)))) as [boundary |] eqn:Hb;
      [| discriminate].
    assert (Hbound : boundary < group_size (row_page_loop src)).
    { apply last_Some in Hb. destruct Hb as [l' Hl']. rewrite Hl' in Hrange.
      apply Forall_app in Hrange. destruct Hrange as [_ Hx].
      inversion Hx; subst. rewrite Hs. lia. }
    destruct (Z.gtb_spec (group_size (row_page_loop src)) boundary) as [_ | Hle];
      [| lia].
    inversion Hclose; subst i. cbn [group_ptr_]. now rewrite Hg, Hs.
Qed.

Lemma group_ptr_marks_runs_of_equal_qids_witness :
  exists c,
    CreateRowPage (ops := sample_ops) false [block_one; block_two] "a:b" = Ok c /\
    seen_qids [block_one; block_two] = [5; 5; 8; 8; 9] /\
    group_ptr_ (saved_info c) = [0; 2; 4; 5].
Proof.
  eexists. split; [vm_compute; reflexivity |]. split; [reflexivity |].
  lazymatch goal with
  | |- group_ptr_ (saved_info ?c) = _ =>
      rewrite (group_ptr_marks_runs_of_equal_qids (ops := sample_ops) false
                 [block_one; block_two] "a:b" c);
        [reflexivity | vm_compute; reflexivity | | reflexivity]
  end.
  repeat constructor; discriminate.
Defined.

(** ** The builders: counters *)

Section CounterFacts.

Context {ops : PageOps}.

Lemma group_rows_counts l : forall w,
  num_row_ (info (fold_left group_row l w)) = num_row_ (info w) /\
  num_nonzero_ (info (fold_left group_row l w)) = num_nonzero_ (info w) /\
  qids_ (info (fold_left group_row l w)) = qids_ (info w).
Proof.
  induction l as [| q l IH]; intros w; simpl; [auto |].
  destruct (IH (group_row w q)) as (-> & -> & ->). auto.
Qed.

Lemma read_qids_counts b w :
  num_row_ (info (read_qids b w)) = num_row_ (info w) /\
  num_nonzero_ (info (read_qids b w)) = num_nonzero_ (info w) /\
  qids_ (info (read_qids b w))
    = qids_ (info w) ++ match qid b with Some q => take (size b) q | None => [] end.
Proof.
  unfold read_qids. destruct (qid b) as [q |].
  - rewrite fold_group_row_fmap.
    destruct (group_rows_counts (at_ q <$> seq 0 (size b))
                (mkWork
                   (mkInfo (num_row_ (info w)) (num_col_ (info w)) (num_nonzero_ (info w))
                      (labels_ (info w)) (weights_ (info w))
                      (qids_ (info w) ++ take (size b) q) (group_ptr_ (info w)))
                   (page w) (written w) (bytes_write w) (last_group_id w) (group_size w)))
      as (-> & -> & ->).
    auto.
  - rewrite app_nil_r. auto.
Qed.

Lemma row_page_batch_counts w b :
  num_row_ (info (row_page_batch w b))
    = wrap64 (num_row_ (info w) + Z.of_nat (size b)) /\
  num_nonzero_ (info (row_page_batch w b))
    = wrap64 (num_nonzero_ (info w)
              + wrap64 (at_ (offset b) (size b) - at_ (offset b) 0)) /\
  qids_ (info (row_page_batch w b))
    = qids_ (info w) ++ match qid b with Some q => take (size b) q | None => [] end.
Proof.
  unfold row_page_batch.
  destruct (read_qids_counts b (read_labels b w)) as (Hr & Hn & Hq).
  destruct (flush_if_full _ _ _) as [[p out] bytes]. simpl.
  rewrite Hr, Hn, Hq. auto.
Qed.

Lemma total_rows_cons b src : total_rows (b :: src) = (size b + total_rows src)%nat.
Proof. reflexivity. Qed.

Lemma qid_rows_cons b src :
  qid_rows (b :: src)
  = (match qid b with Some _ => size b | None => 0 end + qid_rows src)%nat.
Proof. reflexivity. Qed.

Lemma qid_rows_le_total src : (qid_rows src <= total_rows src)%nat.
Proof.
  induction src as [| b src IH]; [reflexivity |].
  rewrite total_rows_cons, qid_rows_cons. destruct (qid b); lia.
Qed.

(** The counters of rows and of query ids after the loop, for blocks as dmlc
    promises them and fewer than 2^64 rows. *)
Lemma row_page_fold_rows src : forall w,
  Forall wf_block src ->
  0 <= num_row_ (info w) ->
  num_row_ (info w) + Z.of_nat (total_rows src) < 2 ^ 64 ->
  num_row_ (info (fold_left row_page_batch src w))
    = num_row_ (info w) + Z.of_nat (total_rows src) /\
  length (qids_ (info (fold_left row_page_batch src w)))
    = (length (qids_ (info w)) + qid_rows src)%nat.
Proof.
  induction src as [| b src IH]; intros w Hwf H0 Hfit.
  - change (total_rows []) with 0%nat. change (qid_rows []) with 0%nat.
    simpl. split; lia.
  - inversion Hwf as [| ? ? Hb Hrest]; subst.
    rewrite total_rows_cons in Hfit |- *. rewrite qid_rows_cons.
    destruct (row_page_batch_counts w b) as (Hr & _ & Hq).
    assert (Hr' : num_row_ (info (row_page_batch w b))
                  = num_row_ (info w) + Z.of_nat (size b)).
    { rewrite Hr. apply wrap64_small. lia. }
    simpl fold_left.
    destruct (IH (row_page_batch w b) Hrest) as (Hrows & Hqids); [lia | lia |].
    rewrite Hrows, Hqids, Hr', Hq, length_app.
    split; [lia |].
    destruct (qid b) as [q |] eqn:Hqb; simpl length; [| lia].
    destruct Hb as [_ Hlen]. specialize (Hlen q Hqb).
    rewrite length_take. lia.
Qed.

Lemma length_block_row b r :
  length (block_row b r)
  = (Z.to_nat (at_ (offset b) (S r)) - Z.to_nat (at_ (offset b) r))%nat.
Proof. unfold block_row. now rewrite length_fmap, length_seq. Qed.

Lemma block_rows_prefix b n :
  (forall r, (r < n)%nat -> 0 <= at_ (offset b) r <= at_ (offset b) (S r)) ->
  Z.of_nat (length (concat (block_row b <$> seq 0 n)))
  = at_ (offset b) n - at_ (offset b) 0 /\
  at_ (offset b) 0 <= at_ (offset b) n.
Proof.
  induction n as [| n IH]; intros Hmono.
  - simpl. lia.
  - destruct IH as [IHlen IHle]; [intros r Hr; apply Hmono; lia |].
    rewrite seq_S, fmap_app, concat_app, length_app, Nat2Z.inj_add, IHlen.
    simpl. rewrite app_nil_r, length_block_row.
    specialize (Hmono n ltac:(lia)). lia.
Qed.

(** The entries of a well-formed block are as many as its offsets say. *)
Lemma block_rows_entries b :
  wf_block b ->
  Z.of_nat (length (concat (block_rows b)))
  = at_ (offset b) (size b) - at_ (offset b) 0 /\
  at_ (offset b) 0 <= at_ (offset b) (size b).
Proof. intros [Hmono _]. now apply block_rows_prefix. Qed.

Lemma source_rows_cons b src : source_rows (b :: src) = block_rows b ++ source_rows src.
Proof. reflexivity. Qed.

Lemma row_page_fold_nonzero src : forall w,
  Forall wf_block src ->
  0 <= num_nonzero_ (info w) ->
  num_nonzero_ (info w) + total_nonzero src < 2 ^ 64 ->
  num_nonzero_ (info (fold_left row_page_batch src w))
    = num_nonzero_ (info w) + total_nonzero src /\
  total_nonzero src = Z.of_nat (length (concat (source_rows src))).
Proof.
  induction src as [| b src IH]; intros w Hwf H0 Hfit.
  - simpl. split; [lia | reflexivity].
  - inversion Hwf as [| ? ? Hb Hrest]; subst.
    destruct (block_rows_entries b Hb) as [Hlen Hle].
    simpl total_nonzero in Hfit |- *.
    assert (Hsrc : 0 <= total_nonzero src).
    { clear - Hrest. induction Hrest as [| x l Hx _ IHl]; simpl; [lia |].
      destruct (block_rows_entries x Hx). lia. }
    destruct (row_page_batch_counts w b) as (_ & Hn & _).
    assert (Hn' : num_nonzero_ (info (row_page_batch w b))
                  = num_nonzero_ (info w)
                    + (at_ (offset b) (size b) - at_ (offset b) 0)).
    { rewrite Hn, (wrap64_small (at_ (offset b) (size b) - at_ (offset b) 0)) by lia.
      apply wrap64_small. lia. }
    simpl fold_left.
    destruct (IH (row_page_batch w b) Hrest) as (Hnz & Htot); [lia | lia |].
    rewrite Hnz, Hn'. split; [lia |].
    rewrite source_rows_cons, concat_app, length_app, Nat2Z.inj_add. lia.
Qed.

Lemma length_source_rows src : length (source_rows src) = total_rows src.
Proof.
  induction src as [| b src IH]; [reflexivity |].
  rewrite total_rows_cons, <- IH, source_rows_cons, length_app.
  unfold block_rows. now rewrite length_fmap, length_seq.
Qed.

(** The rows and entries of a cache against those of the blocks. *)
Lemma CreateRowPage_rows win src cache_info c :
  CreateRowPage win src cache_info = Ok c ->
  exists tail,
    source_rows src = cache_rows c ++ tail /\ concat tail = [].
Proof.
  intros Hc. destruct (CreateRowPage_Ok _ _ _ _ Hc) as (i & _ & _ & Hpages & _).
  pose proof (row_page_fold_stored src row_page_start) as Hrows.
  fold (row_page_loop src) in Hrows. simpl in Hrows.
  destruct (flush_trailing_rows (page (row_page_loop src)) (written (row_page_loop src)))
    as (tail & Hsplit & Hnil & _).
  exists tail. unfold cache_rows. rewrite Hpages, <- Hsplit, Hrows. auto.
Qed.

Lemma max_over_upper a l : a <= max_over a l /\ Forall (fun x => x <= max_over a l) l.
Proof.
  unfold max_over. induction l as [| x l [IHa IHl]]; simpl; [split; [lia | constructor] |].
  split; [lia |]. constructor; [lia |].
  eapply Forall_impl; [exact IHl |]. intros y Hy. simpl in Hy. lia.
Qed.

Lemma max_over_attained a l : max_over a l = a \/ max_over a l ∈ l.
Proof.
  unfold max_over. induction l as [| x l IH]; simpl; [now left |].
  destruct (Z.max_spec x (foldr Z.max a l)) as [[_ ->] | [_ ->]].
  - destruct IH as [-> | Hin]; [now left | right; now constructor].
  - right. constructor.
Qed.

End CounterFacts.

Lemma block_one_wf : wf_block block_one.
Proof.
  split.
  - intros r Hr. simpl in Hr.
    destruct r as [| [| [| r]]]; [vm_compute; split; discriminate ..| lia].
  - intros q Hq. inversion Hq. simpl. lia.
Qed.

Lemma block_two_wf : wf_block block_two.
Proof.
  split.
  - intros r Hr. simpl in Hr.
    destruct r as [| [| r]]; [vm_compute; split; discriminate ..| lia].
  - intros q Hq. inversion Hq. simpl. lia.
Qed.

Lemma block_plain_wf : wf_block block_plain.
Proof.
  split.
  - intros r Hr. simpl in Hr.
    destruct r as [| [| r]]; [vm_compute; split; discriminate ..| lia].
  - intros q Hq. discriminate.
Qed.

(** X17. "Either every row has query ID or none at all."  For blocks whose
    arrays are as long as dmlc promises and fewer than 2^64 rows, once the
    shards are resolved the streaming builder stops with the fatal qid check
    exactly when some rows came with a query id and some came without. *)
Theorem qid_check_fails_iff_ids_are_partial {ops : PageOps}
  (win : bool) (src : list RowBlock) (cache_info : string) (shards : list string) :
  CacheSpec.resolve_shards win cache_info = Ok shards ->
  Forall wf_block src ->
  Z.of_nat (total_rows src) < 2 ^ 64 ->
  (CreateRowPage win src cache_info = Abort GroupInvariant <->
   (0 < qid_rows src < total_rows src)%nat).
Proof.
  intros Hres Hwf Hfit.
  destruct (resolve_shards_first _ _ _ Hres) as (first & others & ->).
  destruct (close_groups_defined src) as [i Hi].
  destruct (close_groups_counts _ _ Hi) as (Hq & Hn & _).
  destruct (row_page_fold_rows src row_page_start Hwf) as (Hrows & Hqids);
    [simpl; lia | simpl; lia |].
  fold (row_page_loop src) in Hrows, Hqids. simpl in Hrows, Hqids.
  rewrite Z.add_0_l in Hrows.
  pose proof (qid_rows_le_total src) as Hle.
  rewrite (CreateRowPage_resolved _ _ _ _ _ _ Hres Hi), Hq, Hn, Hrows, Hqids.
  unfold CHECK.
  destruct (Nat.eqb_spec (qid_rows src) 0) as [Hz | Hnz]; simpl.
  - split; [discriminate | lia].
  - destruct (Z.eqb_spec (Z.of_nat (qid_rows src)) (Z.of_nat (total_rows src)))
      as [He | Hd]; simpl.
    + split; [discriminate | lia].
    + split; [lia | reflexivity].
Qed.

Lemma qid_check_fails_iff_ids_are_partial_witness :
  CacheSpec.resolve_shards false "a:b" = Ok ["a"; "b"]%string /\
  Forall wf_block [block_one; block_plain] /\
  CreateRowPage (ops := sample_ops) false [block_one; block_plain] "a:b"
    = Abort GroupInvariant.
Proof.
  assert (Hwf : Forall wf_block [block_one; block_plain]).
  { constructor; [apply block_one_wf |]. constructor; [apply block_plain_wf | constructor]. }
  split; [reflexivity |]. split; [exact Hwf |].
  apply (qid_check_fails_iff_ids_are_partial (ops := sample_ops) false
           [block_one; block_plain] "a:b" ["a"; "b"]%string eq_refl Hwf).
  - vm_compute. reflexivity.
  - vm_compute. lia.
Defined.

(** X18. The column count of the streaming builder, for column indices below
    2^32-1: num_col is above every column index of the input, it is 0 when
    there is no nonzero, and otherwise num_col - 1 is one of the indices; so
    it is the least bound of the indices. *)
Theorem num_col_is_least_bound_of_indices {ops : PageOps}
  (win : bool) (src : list RowBlock) (cache_info : string) (c : Cache) :
  CreateRowPage win src cache_info = Ok c ->
  Forall (fun x => 0 <= x < 2 ^ 32 - 1) (source_indices src) ->
  Forall (fun x => x < num_col_ (saved_info c)) (source_indices src) /\
  (source_indices src = [] -> num_col_ (saved_info c) = 0) /\
  (source_indices src <> [] -> num_col_ (saved_info c) - 1 ∈ source_indices src).
Proof.
  intros Hc Hall.
  destruct (CreateRowPage_Ok _ _ _ _ Hc) as (i & Hclose & -> & _).
  destruct (close_groups_counts _ _ Hclose) as (_ & _ & -> & _).
  pose proof (row_page_fold_num_col src row_page_start) as Hnc.
  fold (row_page_loop src) in Hnc. simpl in Hnc.
  fold (source_indices src) in Hnc.
  assert (Hsucc : (fun x => wrap32 (x + 1)) <$> source_indices src
                  = (fun x => x + 1) <$> source_indices src).
  { apply Forall_fmap_ext_1. eapply Forall_impl; [exact Hall |].
    intros x Hx. cbv beta in Hx. apply wrap32_small. lia. }
  rewrite Hsucc in Hnc. rewrite Hnc.
  destruct (max_over_upper 0 ((fun x => x + 1) <$> source_indices src)) as [H0 Hup].
  split; [| split].
  - rewrite Forall_fmap in Hup. eapply Forall_impl; [exact Hup |].
    intros x Hx. simpl in Hx. lia.
  - intros ->. reflexivity.
  - intros Hne.
    destruct (max_over_attained 0 ((fun x => x + 1) <$> source_indices src))
      as [Hz | Hin].
    + destruct (source_indices src) as [| x l] eqn:Hidx; [congruence |].
      inversion Hall; subst. rewrite Forall_fmap in Hup. inversion Hup; subst.
      simpl in *. lia.
    + apply list_elem_of_fmap in Hin. destruct Hin as (x & Hx & Hin).
      rewrite Hx. now replace (x + 1 - 1) with x by lia.
Qed.

Lemma num_col_is_least_bound_of_indices_witness :
  exists c,
    CreateRowPage (ops := sample_ops) false [block_one; block_two] "a:b" = Ok c /\
    source_indices [block_one; block_two] = [1; 4; 0; 2; 3; 7] /\
    Forall (fun x => x < num_col_ (saved_info c)) (source_indices [block_one; block_two]).
Proof.
  eexists. split; [vm_compute; reflexivity |]. split; [reflexivity |].
  lazymatch goal with
  | |- Forall _ (source_indices ?src) =>
      lazymatch goal with
      | |- context [saved_info ?c] =>
          destruct (num_col_is_least_bound_of_indices (ops := sample_ops) false
                      src "a:b" c) as [H _];
            [vm_compute; reflexivity | | exact H]
      end
  end.
  repeat constructor; vm_compute; congruence.
Defined.

(** X19. Counters against contents.  For blocks whose arrays are as long as
    dmlc promises, with fewer than 2^64 rows and nonzeros, the streaming
    builder saves as num_nonzero the number of entries of the pages of the
    cache and as num_row the number of rows of the input, which the rows of
    the pages of the cache do not exceed. *)
Theorem counters_match_cache_contents {ops : PageOps}
  (win : bool) (src : list RowBlock) (cache_info : string) (c : Cache) :
  CreateRowPage win src cache_info = Ok c ->
  Forall wf_block src ->
  Z.of_nat (total_rows src) < 2 ^ 64 ->
  total_nonzero src < 2 ^ 64 ->
  num_nonzero_ (saved_info c) = Z.of_nat (length (concat (cache_rows c))) /\
  num_row_ (saved_info c) = Z.of_nat (total_rows src) /\
  Z.of_nat (length (cache_rows c)) <= num_row_ (saved_info c).
Proof.
  intros Hc Hwf Hrows Hnz.
  destruct (CreateRowPage_rows _ _ _ _ Hc) as (tail & Hsplit & Hnil).
  destruct (CreateRowPage_Ok _ _ _ _ Hc) as (i & Hclose & Hi & _).
  destruct (close_groups_counts _ _ Hclose) as (_ & Hr & _ & Hn).
  destruct (row_page_fold_rows src row_page_start Hwf) as (Hrw & _);
    [simpl; lia | simpl; lia |].
  assert (H0 : 0 <= total_nonzero src).
  { clear - Hwf. induction Hwf as [| x l Hx _ IHl]; simpl; [lia |].
    destruct (block_rows_entries x Hx). lia. }
  destruct (row_page_fold_nonzero src row_page_start Hwf) as (Hnn & Htot);
    [simpl; lia | simpl; lia |].
  fold (row_page_loop src) in Hrw, Hnn. simpl in Hrw, Hnn.
  rewrite Hi, Hr, Hn, Hrw, Hnn, Htot, Hsplit, concat_app, Hnil, app_nil_r.
  split; [reflexivity |]. split; [reflexivity |].
  rewrite <- length_source_rows, Hsplit, length_app. lia.
Qed.

Lemma counters_match_cache_contents_witness :
  exists c,
    CreateRowPage (ops := sample_ops) false [block_one; block_two] "a:b" = Ok c /\
    Forall wf_block [block_one; block_two] /\
    num_nonzero_ (saved_info c) = Z.of_nat (length (concat (cache_rows c))) /\
    num_row_ (saved_info c) = 5.
Proof.
  assert (Hwf : Forall wf_block [block_one; block_two]).
  { constructor; [apply block_one_wf |]. constructor; [apply block_two_wf | constructor]. }
  eexists. split; [vm_compute; reflexivity |]. split; [exact Hwf |].
  lazymatch goal with
  | |- num_nonzero_ (saved_info ?c) = _ /\ _ =>
      destruct (counters_match_cache_contents (ops := sample_ops) false
                  [block_one; block_two] "a:b" c) as (Hn & Hr & _);
        [vm_compute; reflexivity | exact Hwf | vm_compute; reflexivity
        | vm_compute; reflexivity | split; [exact Hn | exact Hr]]
  end.
Defined.
